(** * Audio pipeline of the text-to-voice generator

    A shallow embedding of [utils/audio.ts] (base64 codec, PCM decoder,
    WAV encoder, 16 kHz transcoder) and of [services/gemini.ts] (chunk
    reassembly and the single-resolution streaming promise), with the
    properties stated in the specification proved about them.

    JavaScript values are modelled as follows.
    - A string is the list of its UTF-16 code units, each a number [N].
    - A [Uint8Array] is a [list byte]; storing a number into it keeps the
      number modulo 256.
    - A thrown exception is [None]. *)

From Stdlib Require Import NArith ZArith QArith Qround Qabs Lia Lqa List Strings.Byte String Ascii.
From stdpp Require Import base option list.

Local Open Scope N_scope.

(** ** Platform primitives *)

Module JS.

(** A string is its sequence of UTF-16 code units. *)
Definition jsstring : Type := list N.

(** A string literal of the source, as code units. *)
Definition lit (s : string) : jsstring :=
  map N_of_ascii (list_ascii_of_string s).

(** [String.fromCharCode(n)]: the code unit [n mod 2^16]. *)
Definition fromCharCode (n : N) : N := n mod 65536.

(** [s.charCodeAt(i)]: the code unit at [i], [NaN] (here [None]) when
    [i] is out of range. *)
Definition charCodeAt (s : jsstring) (i : nat) : option N := s !! i.

(** Conversion of a number stored into a [Uint8Array]: modulo 256, and
    [NaN] becomes 0. *)
Definition toUint8 (v : option N) : byte :=
  match v with
  | Some n => default x00 (Byte.of_N (n mod 256))
  | None => x00
  end.

(** [for (let i = 0; i < n; i++) body], threading the state. *)
Definition for_range {S : Type} (n : nat) (body : nat -> S -> S) (s0 : S) : S :=
  foldl (fun s i => body i s) s0 (seq 0 n).

(** *** Base64 alphabet *)

Definition b64_char (k : N) : N :=
  if k <? 26 then 65 + k
  else if k <? 52 then 97 + (k - 26)
  else if k <? 62 then 48 + (k - 52)
  else if k =? 62 then 43
  else 47.

Definition b64_index (c : N) : option N :=
  if (65 <=? c) && (c <=? 90) then Some (c - 65)
  else if (97 <=? c) && (c <=? 122) then Some (c - 97 + 26)
  else if (48 <=? c) && (c <=? 57) then Some (c - 48 + 52)
  else if c =? 43 then Some 62
  else if c =? 47 then Some 63
  else None.

Definition pad : N := 61.

(** *** [btoa]

    Throws when a code unit is above 255; otherwise encodes groups of
    three bytes as four characters and pads the last group with [=]. *)

Fixpoint b64_encode (l : list N) : jsstring :=
  match l with
  | a :: b :: c :: rest =>
      let n := a * 65536 + b * 256 + c in
      b64_char (n / 262144) :: b64_char ((n / 4096) mod 64)
        :: b64_char ((n / 64) mod 64) :: b64_char (n mod 64)
        :: b64_encode rest
  | [a; b] =>
      let n := a * 1024 + b * 4 in
      [b64_char (n / 4096); b64_char ((n / 64) mod 64); b64_char (n mod 64); pad]
  | [a] =>
      let n := a * 16 in
      [b64_char (n / 64); b64_char (n mod 64); pad; pad]
  | [] => []
  end.

Definition btoa (s : jsstring) : option jsstring :=
  if forallb (fun c => c <=? 255) s then Some (b64_encode s) else None.

(** *** [atob]

    The forgiving base64 decoder: ASCII whitespace is removed; when the
    length is a multiple of four, one or two trailing [=] are removed;
    a length of 1 modulo 4 or a character outside the alphabet throws;
    every four characters give three bytes, and a last group of three
    or two characters gives two bytes or one. *)

Definition is_ascii_whitespace (c : N) : bool :=
  (c =? 9) || (c =? 10) || (c =? 12) || (c =? 13) || (c =? 32).

Definition is_pad_tail (s : jsstring) : bool :=
  match s with
  | [c] => c =? pad
  | [c; d] => (c =? pad) && (d =? pad)
  | _ => false
  end.

Fixpoint drop_padding (s : jsstring) : jsstring :=
  match s with
  | [] => []
  | c :: r => if is_pad_tail s then [] else c :: drop_padding r
  end.

Fixpoint b64_decode (l : list N) : jsstring :=
  match l with
  | a :: b :: c :: d :: rest =>
      let n := a * 262144 + b * 4096 + c * 64 + d in
      n / 65536 :: (n / 256) mod 256 :: n mod 256 :: b64_decode rest
  | [a; b; c] =>
      let n := (a * 4096 + b * 64 + c) / 4 in
      [n / 256; n mod 256]
  | [a; b] => [(a * 64 + b) / 16]
  | _ => []
  end.

Definition atob (s : jsstring) : option jsstring :=
  let d := List.filter (fun c => negb (is_ascii_whitespace c)) s in
  let d := if (N.of_nat (length d) mod 4 =? 0) then drop_padding d else d in
  if N.of_nat (length d) mod 4 =? 1 then None
  else sextets ← mapM b64_index d; Some (b64_decode sextets).

(** *** Numbers

    The numbers the audio code computes with are exact binary
    fractions: a 16-bit sample divided by 32768, a binary32 sample
    multiplied by a 15- or 16-bit constant, a ratio of two lengths
    compared with 0.  They are modelled as rationals, with the three
    non-finite values of the platform beside them. *)

Inductive number : Type :=
| Num (q : Q)
| PosInf
| NegInf
| NaN.

Definition of_Z (z : Z) : number := Num (inject_Z z).

(** Reading a typed array out of range gives [undefined], which
    converts to [NaN]. *)
Definition of_element (v : option Z) : number :=
  match v with
  | Some z => of_Z z
  | None => NaN
  end.

Definition sign_of (a : number) : option Z :=
  match a with
  | Num q => Some (Z.sgn (Qnum q))
  | PosInf => Some 1%Z
  | NegInf => Some (-1)%Z
  | NaN => None
  end.

Definition inf_of_sign (s : Z) : number :=
  if (s =? 0)%Z then NaN else if (0 <? s)%Z then PosInf else NegInf.

(** [a * b] *)
Definition js_mul (a b : number) : number :=
  match a, b with
  | Num x, Num y => Num (x * y)
  | _, _ =>
      match sign_of a, sign_of b with
      | Some s, Some t => inf_of_sign (s * t)
      | _, _ => NaN
      end
  end.

(** [a / b] *)
Definition js_div (a b : number) : number :=
  match a, b with
  | Num x, Num y =>
      if Qeq_bool y 0 then inf_of_sign (Z.sgn (Qnum x)) else Num (x / y)
  | Num _, (PosInf | NegInf) => Num 0
  | (PosInf | NegInf), Num y =>
      match sign_of a with
      | Some s => inf_of_sign (s * (if (Qnum y <? 0)%Z then -1 else 1))
      | None => NaN
      end
  | _, _ => NaN
  end.

(** [a < b] and [a <= b]; both are false when an operand is [NaN]. *)
Definition js_lt (a b : number) : bool :=
  match a, b with
  | NaN, _ | _, NaN => false
  | _, NegInf | PosInf, _ => false
  | NegInf, _ | _, PosInf => true
  | Num x, Num y => negb (Qle_bool y x)
  end.

Definition js_le (a b : number) : bool :=
  match a, b with
  | NaN, _ | _, NaN => false
  | NegInf, _ | _, PosInf => true
  | _, NegInf | PosInf, _ => false
  | Num x, Num y => Qle_bool x y
  end.

(** [Math.min(a, b)] and [Math.max(a, b)] *)
Definition Math_min (a b : number) : number :=
  match a, b with
  | NaN, _ | _, NaN => NaN
  | _, _ => if js_le a b then a else b
  end.

Definition Math_max (a b : number) : number :=
  match a, b with
  | NaN, _ | _, NaN => NaN
  | _, _ => if js_le a b then b else a
  end.

(** Rounding toward zero, the integer part every integer conversion
    starts from; 0 for a non-finite number. *)
Definition truncate (a : number) : Z :=
  match a with
  | Num q => Z.quot (Qnum q) (Z.pos (Qden q))
  | _ => 0%Z
  end.

(** Conversion to an [unsigned long] argument of a platform method. *)
Definition toUint32 (a : number) : Z := (truncate a mod 4294967296)%Z.

(** Conversion of a number stored into an [Int16Array]. *)
Definition toInt16 (a : number) : Z :=
  let m := (truncate a mod 65536)%Z in
  if (32768 <=? m)%Z then (m - 65536)%Z else m.


(** Number of iterations of [for (let i = 0; i < a; i++)] for a finite
    bound [a]. *)
Definition iterations (a : number) : nat :=
  match a with
  | Num q => Z.to_nat (Qceiling q)
  | _ => 0%nat
  end.

(** The byte holding [z] modulo 256. *)
Definition byte_of_Z (z : Z) : byte :=
  default x00 (Byte.of_N (Z.to_N (z mod 256))).

Definition Z_of_byte (b : byte) : Z := Z.of_N (Byte.to_N b).

(** *** Typed arrays and [DataView] *)

(** [target.set(source, offset)]: throws when the source does not fit. *)
Definition array_set {A : Type} (target : list A) (source : list A) (offset : nat)
  : option (list A) :=
  if (offset + length source <=? length target)%nat
  then Some (take offset target ++ source ++ drop (offset + length source) target)
  else None.

(** [new Int16Array(buffer, 0, n)] over the bytes of [buffer]: element
    [k] is the signed little-endian value of bytes [2k] and [2k+1]. *)
Definition int16_at (bytes : list byte) (k : nat) : Z :=
  let lo := from_option Z_of_byte 0%Z (bytes !! (2 * k)%nat) in
  let hi := from_option Z_of_byte 0%Z (bytes !! (2 * k + 1)%nat) in
  let u := (lo + 256 * hi)%Z in
  if (32768 <=? u)%Z then (u - 65536)%Z else u.

Definition Int16Array_view (bytes : list byte) (n : nat) : list Z :=
  map (int16_at bytes) (seq 0 n).


(** [view.setUint8(offset, v)]; throws out of bounds. *)
Definition setUint8 (view : list byte) (offset : nat) (v : Z) : option (list byte) :=
  if (offset <? length view)%nat then Some (<[offset := byte_of_Z v]> view) else None.

(** The byte of rank [k] of an unsigned value. *)
Definition byte_at (u : Z) (k : Z) : byte :=
  byte_of_Z (Z.land (Z.shiftr u (8 * k)) 255).

(** [view.setUint16(offset, v, littleEndian)] *)
Definition setUint16 (view : list byte) (offset : nat) (v : Z) (littleEndian : bool)
  : option (list byte) :=
  let u := (v mod 65536)%Z in
  let bs := if littleEndian then [byte_at u 0; byte_at u 1]
            else [byte_at u 1; byte_at u 0] in
  array_set view bs offset.

(** [view.setUint32(offset, v, littleEndian)] *)
Definition setUint32 (view : list byte) (offset : nat) (v : Z) (littleEndian : bool)
  : option (list byte) :=
  let u := (v mod 4294967296)%Z in
  let bs := if littleEndian
            then [byte_at u 0; byte_at u 1; byte_at u 2; byte_at u 3]
            else [byte_at u 3; byte_at u 2; byte_at u 1; byte_at u 0] in
  array_set view bs offset.

(** A loop whose body can throw. *)
Definition for_rangeM {S : Type} (n : nat) (body : nat -> S -> option S) (s0 : S)
  : option S :=
  foldl (fun ms i => s ← ms; body i s) (Some s0) (seq 0 n).

(** *** [String.prototype.trim] *)

Definition is_js_whitespace (c : N) : bool :=
  (c =? 9) || (c =? 10) || (c =? 11) || (c =? 12) || (c =? 13) || (c =? 32)
  || (c =? 160) || (c =? 5760) || ((8192 <=? c) && (c <=? 8202))
  || (c =? 8232) || (c =? 8233) || (c =? 8239) || (c =? 8287)
  || (c =? 12288) || (c =? 65279).

Fixpoint trim_start (s : jsstring) : jsstring :=
  match s with
  | c :: r => if is_js_whitespace c then trim_start r else s
  | [] => []
  end.

Definition trim (s : jsstring) : jsstring :=
  rev (trim_start (rev (trim_start s))).

(** *** Web Audio buffers *)

Record AudioBuffer : Type := {
  sampleRate : Z;
  channelData : list (list number)
}.

Definition numberOfChannels (b : AudioBuffer) : nat := length (channelData b).

(** The frame count: the length of channel 0. *)
Definition frames (b : AudioBuffer) : nat :=
  from_option length 0%nat (channelData b !! 0%nat).


(** What an implementation supports. *)
Record AudioContext : Type := {
  maxChannels : Z;
  minSampleRate : Z;
  maxSampleRate : Z
}.

(** [ctx.createBuffer(numberOfChannels, length, sampleRate)]: the
    length is converted to an unsigned long; a channel count, length
    or rate that is zero or outside the supported range throws;
    otherwise every channel is [length] frames of silence. *)
Definition createBuffer (ctx : AudioContext) (nChannels : Z) (len : number)
  (rate : Z) : option AudioBuffer :=
  let n := toUint32 len in
  if ((1 <=? nChannels) && (nChannels <=? maxChannels ctx) && (1 <=? n)
      && (minSampleRate ctx <=? rate) && (rate <=? maxSampleRate ctx))%Z
  then Some {| sampleRate := rate;
               channelData := replicate (Z.to_nat nChannels)
                                (replicate (Z.to_nat n) (Num 0)) |}
  else None.

(** [buffer.getChannelData(channel)[i] = v]: a store out of range is
    ignored. *)
Definition set_sample (b : AudioBuffer) (channel i : nat) (v : number) : AudioBuffer :=
  {| sampleRate := sampleRate b;
     channelData := alter (fun data => <[i := v]> data) channel (channelData b) |}.

Definition get_sample (b : AudioBuffer) (channel i : nat) : option number :=
  data ← channelData b !! channel; data !! i.

End JS.

(** ** [utils/audio.ts]: the base64 codec *)

Module Audio.
Import JS.

(** [decode(base64)]: the empty string gives an empty array without
    calling [atob]; otherwise each code unit of [atob(base64)] is
    stored into a zero-filled [Uint8Array] of the same length. *)
Definition decode (base64 : jsstring) : option (list byte) :=
  match base64 with
  | [] => Some []
  | _ =>
      binaryString ← atob base64;
      let len := length binaryString in
      Some (for_range len
              (fun i bytes => <[i := toUint8 (charCodeAt binaryString i)]> bytes)
              (replicate len x00))
  end.

(** [encode(bytes)]: appends [String.fromCharCode(bytes[i])] for each
    index, then calls [btoa]. *)
Definition encode (bytes : list byte) : option jsstring :=
  let len := length bytes in
  let binary :=
    for_range len
      (fun i binary =>
         binary ++ [fromCharCode (from_option Byte.to_N 0 (bytes !! i))])
      [] in
  btoa binary.

(** ** [utils/audio.ts]: the PCM decoder *)

(** [decodeAudioData(data, ctx, sampleRate, numChannels)].  [data] is
    [None] for [null].  The array is taken to start its own buffer
    ([byteOffset] 0), as the arrays returned by [decode] do. *)
Definition decodeAudioData (data : option (list byte)) (ctx : AudioContext)
  (sampleRate numChannels : Z) : option AudioBuffer :=
  match data with
  | None | Some [] => createBuffer ctx numChannels (of_Z 1) sampleRate
  | Some data =>
      let alignedLength := (length data / 2 * 2)%nat in
      let dataInt16 := Int16Array_view data (alignedLength / 2)%nat in
      let frameCount :=
        js_div (of_Z (Z.of_nat (length dataInt16))) (of_Z numChannels) in
      if js_le frameCount (of_Z 0)
      then createBuffer ctx numChannels (of_Z 1) sampleRate
      else
        buffer ← createBuffer ctx numChannels frameCount sampleRate;
        Some (for_range (Z.to_nat numChannels)
                (fun channel buffer =>
                   for_range (iterations frameCount)
                     (fun i buffer =>
                        set_sample buffer channel i
                          (js_div
                             (of_element
                                (dataInt16 !! (i * Z.to_nat numChannels + channel)%nat))
                             (of_Z 32768)))
                     buffer)
                buffer)
  end.

(** ** [utils/audio.ts]: the WAV encoder *)

(** [writeString(view, offset, string)] *)
Definition writeString (view : list byte) (offset : nat) (string : jsstring)
  : option (list byte) :=
  for_rangeM (length string)
    (fun i view =>
       setUint8 view (offset + i) (Z.of_N (default 0 (charCodeAt string i))))
    view.

Record Blob : Type := {
  blobBytes : list byte;
  blobType : jsstring
}.

(** [pcmToWav(pcmData, sampleRate)]; the caller passes 24000, which is
    also the default of the parameter. *)
Definition pcmToWav (pcmData : list byte) (sampleRate : Z) : option Blob :=
  let len := Z.of_nat (length pcmData) in
  let buffer := replicate (44 + length pcmData) x00 in
  view ← writeString buffer 0 (lit "RIFF");
  view ← setUint32 view 4 (36 + len) true;
  view ← writeString view 8 (lit "WAVE");
  view ← writeString view 12 (lit "fmt ");
  view ← setUint32 view 16 16 true;
  view ← setUint16 view 20 1 true;
  view ← setUint16 view 22 1 true;
  view ← setUint32 view 24 sampleRate true;
  view ← setUint32 view 28 (sampleRate * 2) true;
  view ← setUint16 view 32 2 true;
  view ← setUint16 view 34 16 true;
  view ← writeString view 36 (lit "data");
  view ← setUint32 view 40 len true;
  pcmBytes ← array_set (drop 44 view) pcmData 0;
  Some {| blobBytes := take 44 view ++ pcmBytes; blobType := lit "audio/wav" |}.

(** ** [utils/audio.ts]: the 16 kHz transcoder *)

(** The loop body of [fileToPcm16k]:
    [s = Math.max(-1, Math.min(1, x)); s < 0 ? s * 0x8000 : s * 0x7FFF],
    stored into an [Int16Array]. *)
Definition quantize (x : number) : Z :=
  let s := Math_max (of_Z (-1)) (Math_min (of_Z 1) x) in
  toInt16 (if js_lt s (of_Z 0) then js_mul s (of_Z 32768) else js_mul s (of_Z 32767)).

Section Transcoder.

(** The platform's decoder, [audioCtx.decodeAudioData(arrayBuffer)],
    which rejects a file it cannot decode. *)
Variable decodeFile : list byte -> option AudioBuffer.

(** The platform's offline rendering of a buffer source into an
    [OfflineAudioContext(1, length, 16000)]: channel 0 of the
    rendered buffer. *)
Variable render : AudioBuffer -> nat -> list number.



End Transcoder.

End Audio.

(** ** [services/gemini.ts] *)

Module Gemini.
Import JS.

(** [combineBase64Chunks(chunks)]: a chunk [atob] rejects contributes
    no bytes. *)
Definition combineBase64Chunks (chunks : list jsstring) : option jsstring :=
  match chunks with
  | [] => Some []
  | _ =>
      let byteArrays :=
        map (fun base64 =>
               match atob base64 with
               | Some binary =>
                   for_range (length binary)
                     (fun i bytes => <[i := toUint8 (charCodeAt binary i)]> bytes)
                     (replicate (length binary) x00)
               | None => []
               end) chunks in
      let totalLength := foldl (fun acc curr => (acc + length curr)%nat) 0%nat byteArrays in
      let result := replicate totalLength x00 in
      '(result, _) ←
        foldl (fun state arr =>
                 '(result, offset) ← state;
                 result ← array_set result arr offset;
                 Some (result, (offset + length arr)%nat))
              (Some (result, 0%nat)) byteArrays;
      let len := length result in
      let binary :=
        for_range len
          (fun i binary =>
             binary ++ [fromCharCode (from_option Byte.to_N 0 (result !! i))])
          [] in
      btoa binary
  end.

(** *** The streaming promise of [generateSpeech]

    The callbacks share four variables; each callback runs to
    completion before the next event is delivered. *)

Record State : Type := {
  accumulatedAudioChunks : list jsstring;
  accumulatedText : jsstring;
  isResolved : bool;
  hasReceivedAudio : bool
}.

Definition initial : State :=
  {| accumulatedAudioChunks := [];
     accumulatedText := [];
     isResolved := false;
     hasReceivedAudio := false |}.

(** A part of a server message: [part.inlineData?.data] and
    [part.text], [None] when absent. *)
Record Part : Type := {
  inlineData : option jsstring;
  text : option jsstring
}.

(** [message.serverContent?.modelTurn?.parts || []] and
    [message.serverContent?.turnComplete]. *)
Record Message : Type := {
  parts : list Part;
  turnComplete : bool
}.

Inductive Event : Type :=
| OnOpen
| OnMessage (message : Message)
| OnError (message : option jsstring)
| OnClose
| Timeout.

(** What a callback does to the outside: settle the promise or ask the
    session to close. *)
Inductive Action : Type :=
| Resolve (value : jsstring)
| Reject (error : jsstring)
| CloseSession.

(** A string is truthy when it is present and not empty. *)
Definition truthy (s : option jsstring) : bool :=
  match s with
  | Some (_ :: _) => true
  | _ => false
  end.

Definition set_resolved (st : State) : State :=
  {| accumulatedAudioChunks := accumulatedAudioChunks st;
     accumulatedText := accumulatedText st;
     isResolved := true;
     hasReceivedAudio := hasReceivedAudio st |}.

(** The body of the loop over the parts of a message. *)
Definition receive_part (st : State) (part : Part) : State :=
  let st :=
    if truthy (inlineData part)
    then {| accumulatedAudioChunks :=
              accumulatedAudioChunks st ++ [default [] (inlineData part)];
            accumulatedText := accumulatedText st;
            isResolved := isResolved st;
            hasReceivedAudio := true |}
    else st in
  if truthy (text part)
  then {| accumulatedAudioChunks := accumulatedAudioChunks st;
          accumulatedText := accumulatedText st ++ default [] (text part);
          isResolved := isResolved st;
          hasReceivedAudio := hasReceivedAudio st |}
  else st.

(** [resolve(combineBase64Chunks(accumulatedAudioChunks))] followed by
    [rest]; nothing happens after the call that throws. *)
Definition resolve_combined (st : State) (rest : list Action) : list Action :=
  match combineBase64Chunks (accumulatedAudioChunks st) with
  | Some value => Resolve value :: rest
  | None => []
  end.

Definition onmessage (st : State) (message : Message) : State * list Action :=
  let st := foldl receive_part st (parts message) in
  if turnComplete message then
    if negb (isResolved st) then
      if hasReceivedAudio st then
        (set_resolved st, resolve_combined st [CloseSession])
      else if (0 <? length (trim (accumulatedText st)))%nat then
        (set_resolved st,
         [Reject (lit "Vocal Replication Error: " ++ accumulatedText st);
          CloseSession])
      else (st, [])
    else (st, [])
  else (st, []).

Definition onerror (st : State) (message : option jsstring) : State * list Action :=
  if negb (isResolved st) then
    (set_resolved st,
     [Reject (lit "API Error: "
              ++ (if truthy message then default [] message
                  else lit "Unknown connection error"))])
  else (st, []).

Definition onclose (st : State) : State * list Action :=
  if negb (isResolved st) then
    (set_resolved st,
     if (0 <? length (accumulatedAudioChunks st))%nat
     then resolve_combined st []
     else [Reject (lit "Vocal clone session closed prematurely. Ensure the reference clip is clear.")])
  else (st, []).

(** The callback of [setTimeout(..., 60000)]. *)
Definition ontimeout (st : State) : State * list Action :=
  if negb (isResolved st) then
    if (0 <? length (accumulatedAudioChunks st))%nat then
      (set_resolved st, resolve_combined st [CloseSession])
    else
      (set_resolved st,
       [Reject (if truthy (Some (accumulatedText st))
                then lit "Vocal cloning failed: " ++ accumulatedText st
                else lit "Vocal cloning timeout. The complexity of the reference exceeded processing limits.");
        CloseSession])
  else (st, []).

(** [onopen] only sends the reference audio and the instruction. *)
Definition step (st : State) (ev : Event) : State * list Action :=
  match ev with
  | OnOpen => (st, [])
  | OnMessage message => onmessage st message
  | OnError message => onerror st message
  | OnClose => onclose st
  | Timeout => ontimeout st
  end.

(** The state and the actions after a sequence of events. *)
Definition run_from (st : State) (evs : list Event) : State * list Action :=
  foldl (fun acc ev => let '(st', out) := step (fst acc) ev in (st', snd acc ++ out))
        (st, []) evs.

Definition run (evs : list Event) : State * list Action := run_from initial evs.

Definition is_settle (a : Action) : bool :=
  match a with
  | Resolve _ | Reject _ => true
  | CloseSession => false
  end.

(** The calls of [resolve] and [reject], in order. *)
Definition settlements (out : list Action) : list Action :=
  List.filter is_settle out.

End Gemini.

(** ** [App.tsx]: the data path of [handleGenerateAndPlay] *)

Module App.
Import JS.

(** What the [try] block of [handleGenerateAndPlay] computes from the
    value [generateSpeech] resolved with: [decode(outputBase64)],
    [pcmToWav(audioData, 24000)] and
    [decodeAudioData(audioData, ctx, 24000, 1)].  An exception of any of
    the three reaches the [catch]. *)
Definition process_output (outputBase64 : jsstring) (ctx : AudioContext)
  : option (Audio.Blob * AudioBuffer) :=
  audioData ← Audio.decode outputBase64;
  wavBlob ← Audio.pcmToWav audioData 24000;
  audioBuffer ← Audio.decodeAudioData (Some audioData) ctx 24000 1;
  Some (wavBlob, audioBuffer).

End App.

(** * Definitions of the statements *)

Import JS.
Import Gemini.

(** The sextets [btoa] writes, without the padding. *)
Fixpoint b64_sextets (l : list N) : list N :=
  match l with
  | a :: b :: c :: rest =>
      let n := a * 65536 + b * 256 + c in
      n / 262144 :: (n / 4096) mod 64 :: (n / 64) mod 64 :: n mod 64
        :: b64_sextets rest
  | [a; b] =>
      let n := a * 1024 + b * 4 in
      [n / 4096; (n / 64) mod 64; n mod 64]
  | [a] =>
      let n := a * 16 in
      [n / 64; n mod 64]
  | [] => []
  end.

(** The binary string [encode] and [combineBase64Chunks] build from an
    array: one code unit per byte. *)
Definition binary_of (bytes : list byte) : jsstring :=
  map (fun b => fromCharCode (Byte.to_N b)) bytes.

(** The bytes one chunk contributes: those [atob] decodes, none when it
    throws. *)
Definition chunk_bytes (base64 : jsstring) : list byte :=
  match atob base64 with
  | Some binary => map (fun c => toUint8 (Some c)) binary
  | None => []
  end.

(** The [n] little-endian bytes of an unsigned field holding [v]: the
    value is kept modulo [256^n]. *)
Fixpoint le_bytes (n : nat) (v : Z) : list byte :=
  match n with
  | O => []
  | S n => byte_of_Z v :: le_bytes n (v / 256)
  end.

(** The unsigned value of little-endian bytes. *)
Fixpoint le_value (bytes : list byte) : Z :=
  match bytes with
  | [] => 0
  | b :: r => Z_of_byte b + 256 * le_value r
  end.

(** The bytes of an ASCII tag. *)
Definition ascii_bytes (s : string) : list byte :=
  map byte_of_ascii (list_ascii_of_string s).

(** The canonical 44-byte header of a mono 16-bit PCM file. *)
Definition wav_header (dataLength sampleRate : Z) : list byte :=
  ascii_bytes "RIFF" ++ le_bytes 4 (36 + dataLength)
    ++ ascii_bytes "WAVE"
    ++ ascii_bytes "fmt " ++ le_bytes 4 16
    ++ le_bytes 2 1 ++ le_bytes 2 1
    ++ le_bytes 4 sampleRate ++ le_bytes 4 (sampleRate * 2)
    ++ le_bytes 2 2 ++ le_bytes 2 16
    ++ ascii_bytes "data" ++ le_bytes 4 dataLength.

(** A context with the limits of a common implementation. *)
Definition test_ctx : AudioContext :=
  {| maxChannels := 32; minSampleRate := 3000; maxSampleRate := 768000 |}.

(** Applying a function to the channel data of a buffer. *)
Definition on_data (f : list (list number) -> list (list number)) (b : AudioBuffer)
  : AudioBuffer :=
  {| sampleRate := sampleRate b; channelData := f (channelData b) |}.

(** The value [decodeAudioData] stores for frame [i] of channel [c]. *)
Definition normalized_sample (data : list byte) (numChannels c i : nat) : number :=
  Num (inject_Z (int16_at data (i * numChannels + c)) / inject_Z 32768).

(** A finite sample clamped to [-1, 1]. *)
Definition clamp (x : Q) : Q :=
  if Qle_bool 1 x then 1 else if Qle_bool (-1) x then x else -1.

(** The scale of a clamped sample: 32768 below zero, 32767 from zero
    up. *)
Definition scale (s : Q) : Q :=
  if Qle_bool 0 s then 32767 else 32768.


(** The audio chunk one part contributes. *)
Definition part_chunks (part : Part) : list jsstring :=
  if truthy (inlineData part) then [default [] (inlineData part)] else [].

(** The text one part contributes. *)
Definition part_text (part : Part) : jsstring :=
  if truthy (text part) then default [] (text part) else [].

(** The chunks and the text one event delivers. *)
Definition event_chunks (ev : Event) : list jsstring :=
  match ev with
  | OnMessage message => flat_map part_chunks (parts message)
  | _ => []
  end.

Definition event_text (ev : Event) : jsstring :=
  match ev with
  | OnMessage message => flat_map part_text (parts message)
  | _ => []
  end.

(** The audio chunks and the text a sequence of events delivers, in
    order of receipt. *)
Definition received_chunks (evs : list Event) : list jsstring :=
  flat_map event_chunks evs.

Definition received_text (evs : list Event) : jsstring :=
  flat_map event_text evs.

(** [l.length > 0] *)
Definition nonempty {A : Type} (l : list A) : bool :=
  match l with
  | [] => false
  | _ :: _ => true
  end.

(** The events that end the exchange whatever was received. *)
Definition is_final (ev : Event) : bool :=
  match ev with
  | OnError _ | OnClose | Timeout => true
  | _ => false
  end.

(** The value the promise resolves with. *)
Definition combined (chunks : list jsstring) : jsstring :=
  b64_encode (binary_of (concat (map chunk_bytes chunks))).

(** Messages of a sample exchange. *)
Definition audio_part (data : jsstring) : Part :=
  {| inlineData := Some data; text := None |}.

Definition audio_message (data : jsstring) : Message :=
  {| parts := [audio_part data]; turnComplete := false |}.

Definition turn_complete : Message := {| parts := []; turnComplete := true |}.

Definition text_part (s : jsstring) : Part :=
  {| inlineData := None; text := Some s |}.

(** A character [btoa] can write: one of the alphabet, or the padding. *)
Definition base64_char (c : N) : bool :=
  match b64_index c with
  | Some _ => true
  | None => c =? pad
  end.

(** The little-endian field of [n] bytes at [offset]. *)
Definition field (bytes : list byte) (offset n : nat) : Z :=
  le_value (take n (drop offset bytes)).

(** The calls of [session.close()] a run asks for. *)
Definition close_requests (out : list Action) : list Action :=
  List.filter (fun a => negb (is_settle a)) out.

(** The number a decoder reads back from a 16-bit sample. *)
Definition normalized (z : Z) : Q := inject_Z z / inject_Z 32768.

(** * Properties *)

(** ** Loops that fill or build an array *)

Section Loops.
Context {A B : Type}.

(** Induction over lists three elements at a time, the way base64
    consumes its input. *)
Lemma list_ind3 (P : list A -> Prop) :
  P [] -> (forall a, P [a]) -> (forall a b, P [a; b]) ->
  (forall a b c r, P r -> P (a :: b :: c :: r)) ->
  forall l, P l.
Proof.
  intros H0 H1 H2 H3.
  fix IH 1.
  intros [|a [|b [|c r]]];
    [exact H0 | apply H1 | apply H2 | apply H3, IH].
Qed.

(** Storing [f (s !! i)] at every index of a fresh array gives the
    image of [s]. *)
Lemma fill_loop (f : option A -> B) (d : B) (s : list A) :
  for_range (length s) (fun i arr => <[i := f (s !! i)]> arr)
    (replicate (length s) d)
  = map (fun x => f (Some x)) s.
Proof.
  unfold for_range.
  assert (G : forall k, (k <= length s)%nat ->
            foldl (fun arr i => <[i := f (s !! i)]> arr)
              (replicate (length s) d) (seq 0 k)
            = map (fun x => f (Some x)) (take k s)
                ++ replicate (length s - k) d).
  { induction k as [|k IHk]; intros Hk.
    - simpl. now rewrite Nat.sub_0_r.
    - rewrite seq_S, foldl_app, IHk by lia. simpl.
      destruct (lookup_lt_is_Some_2 s k) as [x Hx]; [lia|].
      rewrite (take_S_r _ _ _ Hx), Hx, map_app. simpl.
      rewrite insert_app_r_alt by (rewrite length_map, length_take; lia).
      rewrite length_map, length_take.
      replace (k - k `min` length s)%nat with 0%nat by lia.
      replace (length s - k)%nat with (S (length s - S k)) by lia.
      simpl. now rewrite <- app_assoc. }
  rewrite G by lia.
  now rewrite firstn_all, Nat.sub_diag, app_nil_r.
Qed.

(** Appending [g (l !! i)] for every index builds the image of [l]. *)
Lemma append_loop (g : option A -> B) (l : list A) :
  for_range (length l) (fun i acc => acc ++ [g (l !! i)]) []
  = map (fun x => g (Some x)) l.
Proof.
  unfold for_range.
  assert (G : forall k, (k <= length l)%nat ->
            foldl (fun acc i => acc ++ [g (l !! i)]) [] (seq 0 k)
            = map (fun x => g (Some x)) (take k l)).
  { induction k as [|k IHk]; intros Hk; [reflexivity|].
    rewrite seq_S, foldl_app, IHk by lia. simpl.
    destruct (lookup_lt_is_Some_2 l k) as [x Hx]; [lia|].
    now rewrite (take_S_r _ _ _ Hx), Hx, map_app. }
  rewrite G by lia. now rewrite firstn_all.
Qed.

End Loops.

(** ** Base64 *)

Ltac n_cases :=
  repeat match goal with
    | |- context [N.ltb ?a ?b] => destruct (N.ltb_spec a b)
    | |- context [N.leb ?a ?b] => destruct (N.leb_spec a b)
    | |- context [N.eqb ?a ?b] => destruct (N.eqb_spec a b)
    end; simpl; try reflexivity; try lia; try (f_equal; lia).

Ltac divmod_lia := zify; Z.to_euclidean_division_equations; lia.

Lemma b64_char_range (k : N) : 43 <= b64_char k /\ b64_char k <> pad.
Proof.
  unfold b64_char, pad.
  destruct (N.ltb_spec k 26); [lia|].
  destruct (N.ltb_spec k 52); [lia|].
  destruct (N.ltb_spec k 62); [lia|].
  destruct (N.eqb_spec k 62); lia.
Qed.

Lemma b64_index_char (k : N) : k < 64 -> b64_index (b64_char k) = Some k.
Proof.
  intros Hk. unfold b64_char.
  destruct (N.ltb_spec k 26); [|destruct (N.ltb_spec k 52);
    [|destruct (N.ltb_spec k 62); [|destruct (N.eqb_spec k 62)]]];
    unfold b64_index; n_cases.
Qed.

Lemma b64_char_not_whitespace (k : N) : is_ascii_whitespace (b64_char k) = false.
Proof.
  destruct (b64_char_range k) as [H _]. revert H.
  generalize (b64_char k). intros c Hc.
  unfold is_ascii_whitespace. n_cases.
Qed.

Lemma b64_char_not_pad (k : N) : (b64_char k =? pad) = false.
Proof. apply N.eqb_neq, b64_char_range. Qed.

Lemma b64_encode_no_whitespace (l : list N) :
  List.filter (fun c => negb (is_ascii_whitespace c)) (b64_encode l) = b64_encode l.
Proof.
  induction l as [| a | a b | a b c r IH] using list_ind3; simpl;
    rewrite ?b64_char_not_whitespace; simpl; congruence.
Qed.

Lemma b64_encode_length (l : list N) :
  N.of_nat (length (b64_encode l)) mod 4 = 0.
Proof.
  induction l as [| a | a b | a b c r IH] using list_ind3; try reflexivity.
  cbn [b64_encode length].
  replace (N.of_nat (S (S (S (S (length (b64_encode r)))))))
    with (N.of_nat (length (b64_encode r)) + 1 * 4) by lia.
  now rewrite N.Div0.mod_add.
Qed.

Lemma b64_encode_drop_padding (l : list N) :
  drop_padding (b64_encode l) = map b64_char (b64_sextets l).
Proof.
  induction l as [| a | a b | a b c r IH] using list_ind3.
  - reflexivity.
  - reflexivity.
  - cbn [b64_encode b64_sextets map drop_padding is_pad_tail].
    now rewrite b64_char_not_pad.
  - cbn [b64_encode b64_sextets map drop_padding is_pad_tail].
    rewrite IH.
    destruct (b64_encode r) as [|x [|y ?]];
      rewrite ?b64_char_not_pad; reflexivity.
Qed.

Lemma b64_sextets_length (l : list N) :
  N.of_nat (length (b64_sextets l)) mod 4 <> 1.
Proof.
  induction l as [| a | a b | a b c r IH] using list_ind3; try (cbv; discriminate).
  cbn [b64_sextets length].
  replace (N.of_nat (S (S (S (S (length (b64_sextets r)))))))
    with (N.of_nat (length (b64_sextets r)) + 1 * 4) by lia.
  now rewrite N.Div0.mod_add.
Qed.

Lemma b64_sextets_index (l : list N) :
  Forall (fun x => x < 256) l ->
  mapM b64_index (map b64_char (b64_sextets l)) = Some (b64_sextets l).
Proof.
  intros Hl. apply mapM_Some_2.
  induction l as [| a | a b | a b c r IH] using list_ind3.
  - constructor.
  - inversion_clear Hl. simpl.
    repeat constructor; apply b64_index_char; divmod_lia.
  - inversion_clear Hl as [|? ? ? Hr]. inversion_clear Hr. simpl.
    repeat constructor; apply b64_index_char; divmod_lia.
  - inversion_clear Hl as [|? ? ? Hr]. inversion_clear Hr as [|? ? ? Hr'].
    inversion_clear Hr'. cbn [b64_sextets map].
    repeat (constructor; [apply b64_index_char; divmod_lia|]).
    now apply IH.
Qed.

Lemma b64_decode_sextets (l : list N) :
  Forall (fun x => x < 256) l -> b64_decode (b64_sextets l) = l.
Proof.
  induction l as [| a | a b | a b c r IH] using list_ind3; intros Hl.
  - reflexivity.
  - inversion_clear Hl. simpl. f_equal. divmod_lia.
  - inversion_clear Hl as [|? ? ? Hr]. inversion_clear Hr. simpl.
    f_equal; [|f_equal]; divmod_lia.
  - inversion_clear Hl as [|? ? ? Hr]. inversion_clear Hr as [|? ? ? Hr'].
    inversion_clear Hr'. cbn [b64_sextets b64_decode].
    rewrite IH by assumption.
    f_equal; [|f_equal; [|f_equal]]; divmod_lia.
Qed.

(** [atob] inverts [btoa] on every string [btoa] accepts. *)
Lemma atob_btoa (s t : jsstring) : btoa s = Some t -> atob t = Some s.
Proof.
  unfold btoa. destruct (forallb _ s) eqn:Hs; [|discriminate].
  intros [= <-].
  assert (Hl : Forall (fun x => x < 256) s).
  { apply List.Forall_forall. intros x Hx.
    apply (proj1 (forallb_forall _ _) Hs) in Hx.
    apply N.leb_le in Hx. lia. }
  unfold atob.
  rewrite b64_encode_no_whitespace, b64_encode_length. simpl.
  rewrite b64_encode_drop_padding, length_map.
  destruct (N.eqb_spec (N.of_nat (length (b64_sextets s)) mod 4) 1) as [E|_].
  - now apply b64_sextets_length in E.
  - rewrite b64_sextets_index by assumption. simpl.
    now rewrite b64_decode_sextets.
Qed.

(** ** The codec of [utils/audio.ts] *)

Lemma binary_loop (bytes : list byte) :
  for_range (length bytes)
    (fun i binary => binary ++ [fromCharCode (from_option Byte.to_N 0 (bytes !! i))])
    []
  = binary_of bytes.
Proof.
  exact (append_loop (fun o => fromCharCode (from_option Byte.to_N 0 o)) bytes).
Qed.

Lemma bytes_loop (binary : jsstring) :
  for_range (length binary)
    (fun i bytes => <[i := toUint8 (charCodeAt binary i)]> bytes)
    (replicate (length binary) x00)
  = map (fun c => toUint8 (Some c)) binary.
Proof. exact (fill_loop toUint8 x00 binary). Qed.

Lemma toUint8_fromCharCode (b : byte) :
  toUint8 (Some (fromCharCode (Byte.to_N b))) = b.
Proof.
  unfold toUint8, fromCharCode.
  pose proof (Byte.to_N_bounded b).
  rewrite (N.mod_small (Byte.to_N b) 65536) by lia.
  rewrite N.mod_small by lia.
  now rewrite Byte.of_to_N.
Qed.

Lemma bytes_of_binary (bytes : list byte) :
  map (fun c => toUint8 (Some c)) (binary_of bytes) = bytes.
Proof.
  induction bytes as [|b r IH]; [reflexivity|].
  cbn [binary_of map]. fold (binary_of r).
  now rewrite toUint8_fromCharCode, IH.
Qed.

(** [btoa] never throws on a binary string built from bytes. *)
Lemma btoa_binary (bytes : list byte) :
  btoa (binary_of bytes) = Some (b64_encode (binary_of bytes)).
Proof.
  unfold btoa.
  replace (forallb _ (binary_of bytes)) with true; [reflexivity|].
  symmetry. apply forallb_forall. intros c Hc.
  apply in_map_iff in Hc as (b & <- & _).
  unfold fromCharCode. pose proof (Byte.to_N_bounded b).
  rewrite N.mod_small by lia. now apply N.leb_le.
Qed.

Lemma encode_spec (bytes : list byte) :
  Audio.encode bytes = Some (b64_encode (binary_of bytes)).
Proof. unfold Audio.encode. now rewrite binary_loop, btoa_binary. Qed.

Lemma atob_encoded (bytes : list byte) :
  atob (b64_encode (binary_of bytes)) = Some (binary_of bytes).
Proof. apply atob_btoa, btoa_binary. Qed.

Lemma decode_encoded (bytes : list byte) :
  Audio.decode (b64_encode (binary_of bytes)) = Some bytes.
Proof.
  unfold Audio.decode.
  destruct (b64_encode (binary_of bytes)) as [|c r] eqn:E.
  - destruct bytes as [|x [|y [|z ?]]]; [reflexivity|discriminate..].
  - rewrite <- E, atob_encoded. simpl.
    now rewrite bytes_loop, bytes_of_binary.
Qed.

(** C1. For every byte sequence [b], the empty one included, [encode b]
    returns a string and [decode] of that string returns [b]. *)
Theorem decode_encode_roundtrip (b : list byte) :
  exists s, Audio.encode b = Some s /\ Audio.decode s = Some b.
Proof.
  exists (b64_encode (binary_of b)). split.
  - apply encode_spec.
  - apply decode_encoded.
Qed.

(** ** Chunk reassembly *)

Lemma array_set_fresh {A : Type} (d : A) (pre src : list A) (k : nat) :
  array_set (pre ++ replicate (length src + k) d) src (length pre)
  = Some (pre ++ src ++ replicate k d).
Proof.
  unfold array_set.
  rewrite length_app, length_replicate.
  destruct (Nat.leb_spec (length pre + length src) (length pre + (length src + k)));
    [|lia].
  rewrite take_app_length, drop_app_add', drop_replicate by reflexivity.
  do 4 f_equal. lia.
Qed.

Lemma total_length_concat (arrays : list (list byte)) (n : nat) :
  foldl (fun acc curr => (acc + length curr)%nat) n arrays
  = (n + length (concat arrays))%nat.
Proof.
  revert n. induction arrays as [|a r IH]; intros n; simpl; [lia|].
  rewrite IH, length_app. lia.
Qed.

(** The copying loop of [combineBase64Chunks] lays the arrays end to
    end. *)
Lemma copy_loop (arrays : list (list byte)) (pre : list byte) (k : nat) :
  foldl (fun state arr =>
           '(result, offset) ← state;
           result ← array_set result arr offset;
           Some (result, (offset + length arr)%nat))
        (Some (pre ++ replicate (length (concat arrays) + k) x00, length pre))
        arrays
  = Some (pre ++ concat arrays ++ replicate k x00,
          (length pre + length (concat arrays))%nat).
Proof.
  revert pre. induction arrays as [|a r IH]; intros pre.
  - simpl. now rewrite Nat.add_0_r.
  - cbn [foldl concat]. cbn [mbind option_bind].
    rewrite length_app, <- Nat.add_assoc, array_set_fresh.
    cbn [mbind option_bind].
    replace (length pre + length a)%nat with (length (pre ++ a))
      by (now rewrite length_app).
    rewrite (app_assoc pre a), IH.
    now rewrite length_app, <- !app_assoc, Nat.add_assoc.
Qed.

(** What [combineBase64Chunks] returns, for every list of chunks: it
    never throws. *)
Lemma combineBase64Chunks_spec (chunks : list jsstring) :
  Gemini.combineBase64Chunks chunks
  = Some (b64_encode (binary_of (concat (map chunk_bytes chunks)))).
Proof.
  destruct chunks as [|c r]; [reflexivity|].
  unfold Gemini.combineBase64Chunks.
  generalize (c :: r). intros chunks.
  assert (E : map (fun base64 =>
                     match atob base64 with
                     | Some binary =>
                         for_range (length binary)
                           (fun i bytes => <[i := toUint8 (charCodeAt binary i)]> bytes)
                           (replicate (length binary) x00)
                     | None => []
                     end) chunks
              = map chunk_bytes chunks).
  { apply map_ext. intros s. unfold chunk_bytes.
    destruct (atob s); [apply bytes_loop | reflexivity]. }
  rewrite E, total_length_concat. simpl (0 + _)%nat.
  pose proof (copy_loop (map chunk_bytes chunks) [] 0) as L.
  rewrite Nat.add_0_r, app_nil_r in L. cbn [app length] in L.
  rewrite L. cbn [mbind option_bind].
  now rewrite binary_loop, btoa_binary.
Qed.

Lemma chunk_bytes_encoded (b : list byte) :
  chunk_bytes (b64_encode (binary_of b)) = b.
Proof. unfold chunk_bytes. now rewrite atob_encoded, bytes_of_binary. Qed.

Lemma encode_all (bs : list (list byte)) :
  mapM Audio.encode bs = Some (map (fun b => b64_encode (binary_of b)) bs).
Proof.
  apply mapM_Some_2.
  induction bs; constructor; [apply encode_spec | assumption].
Qed.

(** C2. For every list of byte sequences, empty list and empty elements
    included, the encodings of the sequences exist, and
    [combineBase64Chunks] of them returns a string that decodes to the
    concatenation of the sequences in order; for the empty list it
    returns the empty string. *)
Theorem combineBase64Chunks_concat (bs : list (list byte)) :
  (exists chunks s,
      mapM Audio.encode bs = Some chunks
      /\ Gemini.combineBase64Chunks chunks = Some s
      /\ Audio.decode s = Some (concat bs))
  /\ Gemini.combineBase64Chunks [] = Some [].
Proof.
  split; [|reflexivity].
  exists (map (fun b => b64_encode (binary_of b)) bs),
         (b64_encode (binary_of (concat bs))).
  split; [apply encode_all|].
  split; [|apply decode_encoded].
  rewrite combineBase64Chunks_spec, map_map.
  rewrite (map_ext _ (fun b => b) chunk_bytes_encoded), map_id.
  reflexivity.
Qed.

(** ** The WAV encoder *)

Lemma Z_of_byte_of_Z (z : Z) : Z_of_byte (byte_of_Z z) = (z mod 256)%Z.
Proof.
  unfold Z_of_byte, byte_of_Z.
  assert (H : (0 <= z mod 256 < 256)%Z) by (apply Z.mod_pos_bound; lia).
  destruct (Byte.of_N (Z.to_N (z mod 256))) as [b|] eqn:E.
  - apply Byte.to_of_N in E. simpl. rewrite E. lia.
  - apply Byte.of_N_None_iff in E. lia.
Qed.

Lemma byte_of_Z_mod (z : Z) : byte_of_Z (z mod 256) = byte_of_Z z.
Proof. unfold byte_of_Z. now rewrite Z.mod_mod by lia. Qed.

Lemma byte_of_Z_congr (a b : Z) :
  (a mod 256 = b mod 256)%Z -> byte_of_Z a = byte_of_Z b.
Proof. unfold byte_of_Z. now intros ->. Qed.

Lemma byte_at_div (u k : Z) :
  (0 <= k)%Z -> byte_at u k = byte_of_Z (u / 2 ^ (8 * k)).
Proof.
  intros Hk. unfold byte_at.
  change 255%Z with (Z.ones 8).
  rewrite Z.land_ones, Z.shiftr_div_pow2 by lia.
  apply byte_of_Z_mod.
Qed.

Lemma setUint32_le (view : list byte) (offset : nat) (v : Z) :
  setUint32 view offset v true = array_set view (le_bytes 4 v) offset.
Proof.
  unfold setUint32. f_equal. cbn [le_bytes].
  rewrite !byte_at_div by lia.
  change (2 ^ (8 * 0))%Z with 1%Z. change (2 ^ (8 * 1))%Z with 256%Z.
  change (2 ^ (8 * 2))%Z with 65536%Z. change (2 ^ (8 * 3))%Z with 16777216%Z.
  repeat apply (f_equal2 cons); try reflexivity;
    apply byte_of_Z_congr; divmod_lia.
Qed.

Lemma setUint16_le (view : list byte) (offset : nat) (v : Z) :
  setUint16 view offset v true = array_set view (le_bytes 2 v) offset.
Proof.
  unfold setUint16. f_equal. cbn [le_bytes].
  rewrite !byte_at_div by lia.
  change (2 ^ (8 * 0))%Z with 1%Z. change (2 ^ (8 * 1))%Z with 256%Z.
  repeat apply (f_equal2 cons); try reflexivity;
    apply byte_of_Z_congr; divmod_lia.
Qed.

(** A field of at most eight bytes reads back as the value written,
    modulo the width of the field. *)
Lemma le_value_le_bytes (n : nat) (v : Z) :
  le_value (le_bytes n v) = (v mod 256 ^ Z.of_nat n)%Z.
Proof.
  revert v. induction n as [|n IH]; intros v.
  - simpl. now rewrite Z.mod_1_r.
  - cbn [le_bytes le_value]. rewrite IH, Z_of_byte_of_Z.
    rewrite Nat2Z.inj_succ, Z.pow_succ_r by lia.
    rewrite Z.rem_mul_r by lia. reflexivity.
Qed.

Lemma array_set_app {A : Type} (h t src : list A) (offset : nat) :
  (offset + length src <= length h)%nat ->
  array_set (h ++ t) src offset
  = Some ((take offset h ++ src ++ drop (offset + length src) h) ++ t).
Proof.
  intros H. unfold array_set. rewrite length_app.
  destruct (Nat.leb_spec (offset + length src) (length h + length t)); [|lia].
  rewrite take_app_le, drop_app_le by lia.
  now rewrite <- !app_assoc.
Qed.

Lemma array_set_all {A : Type} (t src : list A) :
  length t = length src -> array_set t src 0 = Some src.
Proof.
  intros H. unfold array_set. simpl. rewrite H, Nat.leb_refl.
  rewrite <- H, drop_all. now rewrite app_nil_r.
Qed.

(** Within bounds, [writeString] stores the code units of the string as
    consecutive bytes. *)
Lemma writeString_array_set (view : list byte) (offset : nat) (s : jsstring) :
  (offset + length s <= length view)%nat ->
  Audio.writeString view offset s
  = array_set view (map (fun c => byte_of_Z (Z.of_N c)) s) offset.
Proof.
  intros H. unfold Audio.writeString, for_rangeM.
  assert (G : forall k, (k <= length s)%nat ->
            foldl (fun ms i =>
                     v ← ms;
                     setUint8 v (offset + i) (Z.of_N (default 0 (charCodeAt s i))))
                  (Some view) (seq 0 k)
            = Some (take offset view
                      ++ map (fun c => byte_of_Z (Z.of_N c)) (take k s)
                      ++ drop (offset + k) view)).
  { induction k as [|k IHk]; intros Hk.
    - simpl. now rewrite Nat.add_0_r, take_drop.
    - rewrite seq_S, foldl_app, IHk by lia.
      cbn [foldl mbind option_bind Nat.add].
      destruct (lookup_lt_is_Some_2 s k) as [c Hc]; [lia|].
      unfold setUint8, charCodeAt, jsstring. rewrite Hc. cbn [default from_option].
      rewrite !length_app, length_map, !length_take, length_drop.
      destruct (Nat.ltb_spec (offset + k)
                  (offset `min` length view
                   + (k `min` length s + (length view - (offset + k))))); [|lia].
      f_equal.
      rewrite insert_app_r_alt by (rewrite length_take; lia).
      rewrite insert_app_r_alt by (rewrite length_map, !length_take; lia).
      rewrite length_map, !length_take.
      replace (offset + k - offset `min` length view - k `min` length s)%nat
        with 0%nat by lia.
      rewrite (take_S_r _ _ _ Hc), map_app, <- app_assoc. simpl.
      destruct (drop (offset + k) view) as [|x r] eqn:E.
      + apply (f_equal length) in E. rewrite length_drop in E. simpl in E. lia.
      + simpl. do 3 f_equal.
        replace (offset + S k)%nat with (offset + k + 1)%nat by lia.
        now rewrite <- drop_drop, E. }
  rewrite G by lia. unfold array_set.
  rewrite length_map.
  destruct (Nat.leb_spec (offset + length s) (length view)); [|lia].
  now rewrite firstn_all.
Qed.

(** One header write on a buffer whose first 44 cells are explicit. *)
Ltac header_write :=
  first [ rewrite writeString_array_set
            by (cbn [length app lit map list_ascii_of_string]; lia)
        | rewrite setUint32_le
        | rewrite setUint16_le ];
  cbn [array_set length Nat.add Nat.leb firstn skipn app le_bytes map lit
       list_ascii_of_string mbind option_bind].

(** C3. For every byte sequence [pcm] and every sample rate,
    [pcmToWav] returns a blob of [44 + length pcm] bytes: the canonical
    little-endian header (RIFF, u32 36 + length, WAVE, fmt, u32 16,
    u16 1, u16 1, u32 rate, u32 rate * 2, u16 2, u16 16, data,
    u32 length, each field holding its value modulo its width) followed
    by the PCM bytes unchanged. *)
Theorem pcmToWav_layout (pcm : list byte) (sampleRate : Z) :
  exists blob,
    Audio.pcmToWav pcm sampleRate = Some blob
    /\ length (Audio.blobBytes blob) = (44 + length pcm)%nat
    /\ take 44 (Audio.blobBytes blob)
       = wav_header (Z.of_nat (length pcm)) sampleRate
    /\ drop 44 (Audio.blobBytes blob) = pcm.
Proof.
  unfold Audio.pcmToWav.
  rewrite replicate_add.
  assert (Ht : length (replicate (length pcm) x00) = length pcm)
    by apply length_replicate.
  revert Ht. generalize (replicate (length pcm) x00). intros t Ht.
  cbn [replicate app].
  do 13 header_write.
  change (drop 0 (drop 0 t)) with t.
  rewrite (array_set_all t pcm Ht). cbn [mbind option_bind].
  eexists. split; [reflexivity|].
  cbn [Audio.blobBytes app length firstn skipn].
  repeat split; reflexivity.
Qed.

(** The fields read back as the values themselves when they fit. *)
Corollary wav_field_value (n : nat) (v : Z) :
  (0 <= v < 256 ^ Z.of_nat n)%Z -> le_value (le_bytes n v) = v.
Proof. intros H. rewrite le_value_le_bytes. now apply Z.mod_small. Qed.

Example pcmToWav_two_bytes :
  Audio.blobBytes <$> Audio.pcmToWav [x01; x02] 24000
  = Some (ascii_bytes "RIFF" ++ [x26; x00; x00; x00] ++ ascii_bytes "WAVEfmt "
            ++ [x10; x00; x00; x00; x01; x00; x01; x00]
            ++ [xc0; x5d; x00; x00; x80; xbb; x00; x00; x02; x00; x10; x00]
            ++ ascii_bytes "data" ++ [x02; x00; x00; x00] ++ [x01; x02]).
Proof. vm_compute. reflexivity. Qed.

(** ** The PCM decoder *)

Example decodeAudioData_two_frames :
  channelData <$> Audio.decodeAudioData (Some [x00; x40; x00; xc0]) test_ctx 24000 1
  = Some [[Num (16384 / 32768); Num (-16384 / 32768)]].
Proof. vm_compute. reflexivity. Qed.

Example decodeAudioData_odd_byte :
  Audio.decodeAudioData (Some [x00; x40; x00; xc0; x7f]) test_ctx 24000 1
  = Audio.decodeAudioData (Some [x00; x40; x00; xc0]) test_ctx 24000 1.
Proof. vm_compute. reflexivity. Qed.

Example decodeAudioData_null :
  channelData <$> Audio.decodeAudioData None test_ctx 24000 2
  = Some [[Num 0]; [Num 0]].
Proof. vm_compute. reflexivity. Qed.

Example decodeAudioData_one_byte :
  channelData <$> Audio.decodeAudioData (Some [x05]) test_ctx 24000 1
  = Some [[Num 0]].
Proof. vm_compute. reflexivity. Qed.

Example decodeAudioData_stereo_three_samples :
  channelData <$> Audio.decodeAudioData (Some [x00; x40; x00; xc0; x00; x20]) test_ctx 24000 2
  = Some [[Num (16384 / 32768)]; [Num (-16384 / 32768)]].
Proof. vm_compute. reflexivity. Qed.

Example decodeAudioData_partial_frame :
  Audio.decodeAudioData (Some [x00; x40]) test_ctx 24000 2 = None.
Proof. vm_compute. reflexivity. Qed.

Section DecoderLoops.
Context {X : Type}.

(** A loop over buffers that only touches the channel data is a loop
    over the channel data. *)
Lemma foldl_on_data (h : X -> list (list number) -> list (list number))
  (l : list X) (b : AudioBuffer) :
  foldl (fun b x => on_data (h x) b) b l
  = on_data (fun cd => foldl (fun cd x => h x cd) cd l) b.
Proof.
  revert b. induction l as [|x l IH]; intros b; simpl.
  - now destruct b.
  - now rewrite IH.
Qed.

(** A loop that rewrites one row is a rewrite of that row by a loop. *)
Lemma foldl_alter {R : Type} (h : X -> R -> R) (c : nat) (l : list X)
  (rows : list R) :
  foldl (fun rows x => alter (h x) c rows) rows l
  = alter (fun row => foldl (fun row x => h x row) row l) c rows.
Proof.
  revert rows. induction l as [|x l IH]; intros rows; simpl.
  - symmetry. apply list_alter_id. reflexivity.
  - rewrite IH, list_alter_alter_eq. reflexivity.
Qed.

End DecoderLoops.

(** Storing [v i] at every index below [n] of a fresh row of [m <= n]
    cells: the stores past the end are ignored. *)
Lemma store_loop {B : Type} (v : nat -> B) (d : B) (m n : nat) :
  (m <= n)%nat ->
  for_range n (fun i row => <[i := v i]> row) (replicate m d) = map v (seq 0 m).
Proof.
  intros Hmn. unfold for_range.
  assert (G : forall k,
            foldl (fun row i => <[i := v i]> row) (replicate m d) (seq 0 k)
            = map v (seq 0 (k `min` m)) ++ replicate (m - k) d).
  { induction k as [|k IHk].
    - simpl. now rewrite Nat.sub_0_r.
    - rewrite seq_S, foldl_app, IHk. cbn [foldl Nat.add].
      destruct (Nat.lt_ge_cases k m) as [Hk|Hk].
      + rewrite insert_app_r_alt by (rewrite length_map, length_seq; lia).
        rewrite length_map, length_seq.
        replace (k - k `min` m)%nat with 0%nat by lia.
        replace (m - k)%nat with (S (m - S k)) by lia.
        replace (S k `min` m)%nat with (S k) by lia.
        replace (k `min` m)%nat with k by lia.
        rewrite (seq_S k 0), map_app, <- app_assoc. reflexivity.
      + rewrite list_insert_ge
          by (rewrite length_app, length_map, length_seq, length_replicate; lia).
        replace (S k `min` m)%nat with (k `min` m)%nat by lia.
        replace (m - S k)%nat with (m - k)%nat by lia.
        reflexivity. }
  rewrite G.
  replace (n `min` m)%nat with m by lia.
  replace (m - n)%nat with 0%nat by lia.
  apply app_nil_r.
Qed.

(** Rewriting row [c] by [g c] for every [c] below [k]. *)
Lemma rows_loop {R : Type} (g : nat -> R -> R) (rows : list R) (k j : nat) :
  for_range k (fun c rows => alter (g c) c rows) rows !! j
  = (if (j <? k)%nat then g j else id) <$> rows !! j.
Proof.
  unfold for_range. induction k as [|k IHk].
  - simpl. now destruct (rows !! j).
  - rewrite seq_S, foldl_app. simpl.
    rewrite list_lookup_alter. destruct (decide (k = j)) as [->|Hne].
    + rewrite IHk, Nat.ltb_irrefl.
      destruct (Nat.ltb_spec j (S j)); [|lia].
      now destruct (rows !! j).
    + rewrite IHk.
      destruct (Nat.ltb_spec j k), (Nat.ltb_spec j (S k)); try lia; reflexivity.
Qed.

(** *** The frame count as a number *)

Section FrameCount.
Variable n : Z.
Variable p : positive.
Hypothesis Hn : (0 <= n)%Z.

Local Abbreviation q := (inject_Z n / inject_Z (Z.pos p))%Q.

Lemma js_div_pos : js_div (of_Z n) (of_Z (Z.pos p)) = Num q.
Proof. reflexivity. Qed.

Lemma Qfloor_ratio : Qfloor q = (n / Z.pos p)%Z.
Proof.
  unfold Qdiv, Qinv, Qmult, inject_Z, Qfloor. simpl.
  now rewrite Z.mul_1_r.
Qed.

Lemma truncate_ratio : truncate (Num q) = (n / Z.pos p)%Z.
Proof.
  unfold Qdiv, Qinv, Qmult, inject_Z, truncate. simpl.
  rewrite Z.mul_1_r. apply Z.quot_div_nonneg; lia.
Qed.

Lemma Qceiling_ratio : (n / Z.pos p <= Qceiling q)%Z.
Proof.
  rewrite <- Qfloor_ratio.
  rewrite Zle_Qle. eapply Qle_trans; [apply Qfloor_le | apply Qle_ceiling].
Qed.

Lemma js_le_ratio : js_le (Num q) (of_Z 0) = negb (0 <? n)%Z.
Proof.
  unfold Qdiv, Qinv, Qmult, inject_Z, of_Z, js_le, Qle_bool. simpl.
  rewrite !Z.mul_1_r.
  destruct (Z.leb_spec n 0), (Z.ltb_spec 0 n); simpl; lia || reflexivity.
Qed.

End FrameCount.

Lemma foldl_ext_all {S X : Type} (f g : S -> X -> S) (l : list X) (s : S) :
  (forall s x, f s x = g s x) -> foldl f s l = foldl g s l.
Proof.
  intros H. revert s. induction l as [|x l IH]; intros s; simpl; [reflexivity|].
  now rewrite H, IH.
Qed.

Lemma Int16Array_view_length (bytes : list byte) (k : nat) :
  length (Int16Array_view bytes k) = k.
Proof. unfold Int16Array_view. now rewrite length_map, length_seq. Qed.

(** The buffer [decodeAudioData] builds from at least one complete
    frame. *)
Lemma decodeAudioData_closed (ctx : AudioContext) (data : list byte)
  (sampleRate : Z) (p : positive) :
  let n := Z.of_nat (length data / 2) in
  let F := (n / Z.pos p)%Z in
  (Z.pos p <= maxChannels ctx)%Z ->
  (minSampleRate ctx <= sampleRate <= maxSampleRate ctx)%Z ->
  (Z.pos p <= n)%Z ->
  (F < 4294967296)%Z ->
  Audio.decodeAudioData (Some data) ctx sampleRate (Z.pos p)
  = Some {| JS.sampleRate := sampleRate;
            channelData :=
              map (fun c =>
                     map (normalized_sample data (Pos.to_nat p) c)
                       (seq 0 (Z.to_nat F)))
                  (seq 0 (Pos.to_nat p)) |}.
Proof.
  intros n F Hmax Hrate Hframe Hwrap.
  assert (HF : (1 <= F)%Z).
  { unfold F. apply Z.div_le_lower_bound; lia. }
  destruct data as [|b0 r]; [simpl in n; lia|].
  unfold Audio.decodeAudioData.
  revert n F Hframe Hwrap HF. generalize (b0 :: r). clear b0 r.
  intros data n F Hframe Hwrap HF.
  rewrite Nat.div_mul by lia.
  rewrite !Int16Array_view_length.
  fold n. rewrite !js_div_pos, js_le_ratio by lia.
  destruct (Z.ltb_spec 0 n); [|lia]. cbn [negb].
  unfold createBuffer, toUint32.
  rewrite truncate_ratio by lia. fold F.
  rewrite Z.mod_small by lia.
  destruct (Z.leb_spec 1 (Z.pos p)); [|lia].
  destruct (Z.leb_spec (Z.pos p) (maxChannels ctx)); [|lia].
  destruct (Z.leb_spec 1 F); [|lia].
  destruct (Z.leb_spec (minSampleRate ctx) sampleRate); [|lia].
  destruct (Z.leb_spec sampleRate (maxSampleRate ctx)); [|lia].
  cbn [andb mbind option_bind]. f_equal.
  unfold for_range at 1.
  set (I := iterations _).
  assert (HI : (Z.to_nat F <= I)%nat).
  { unfold I, iterations. pose proof (Qceiling_ratio n p). lia. }
  set (v := fun c i =>
              js_div (of_element
                        (Int16Array_view data (length data / 2)
                           !! (i * Z.to_nat (Z.pos p) + c)%nat))
                     (of_Z 32768)).
  rewrite (foldl_ext_all _
             (fun b c => on_data
                (alter (fun row => for_range I (fun i row => <[i := v c i]> row) row) c)
                b)).
  2:{ intros b c. unfold for_range.
      etransitivity;
        [apply (foldl_on_data (fun i => alter (fun row => <[i := v c i]> row) c))|].
      unfold on_data. f_equal.
      apply (foldl_alter (fun i row => <[i := v c i]> row)). }
  rewrite (foldl_on_data
             (fun c => alter (fun row => for_range I
                                (fun i row => <[i := v c i]> row) row) c)).
  unfold on_data. cbn [JS.sampleRate channelData]. f_equal.
  apply list_eq. intros c.
  pose proof (rows_loop
                (fun c row => for_range I (fun i row => <[i := v c i]> row) row)
                (replicate (Z.to_nat (Z.pos p)) (replicate (Z.to_nat F) (Num 0)))
                (Z.to_nat (Z.pos p)) c) as L.
  unfold for_range at 1 in L. rewrite L. clear L.
  rewrite list_lookup_fmap.
  replace (Z.to_nat (Z.pos p)) with (Pos.to_nat p) by lia.
  destruct (Nat.lt_ge_cases c (Pos.to_nat p)) as [Hc|Hc].
  - rewrite lookup_replicate_2, lookup_seq_lt by lia.
    destruct (Nat.ltb_spec c (Pos.to_nat p)); [|lia].
    cbn [fmap option_fmap option_map Nat.add]. f_equal.
    rewrite store_loop by lia.
    apply map_ext_in. intros i Hi. apply in_seq in Hi.
    unfold v, normalized_sample, Int16Array_view.
    rewrite list_lookup_fmap, lookup_seq_lt; [reflexivity|].
    assert (Z.of_nat i < F)%Z by lia.
    assert (F * Z.pos p <= n)%Z
      by (unfold F; rewrite Z.mul_comm; apply Z.mul_div_le; lia).
    nia.
  - rewrite (lookup_ge_None_2 (replicate _ _)) by (rewrite length_replicate; lia).
    rewrite lookup_seq_ge by lia. reflexivity.
Qed.

Lemma int16_at_take (data : list byte) (m k : nat) :
  (2 * k + 1 < m)%nat -> int16_at (take m data) k = int16_at data k.
Proof.
  intros H. unfold int16_at.
  now rewrite !lookup_take_lt by lia.
Qed.

(** C4. For every input that holds at least one complete frame, on a
    context that supports the channel count and the rate and for fewer
    than 2^32 frames, [decodeAudioData] returns a buffer; the buffer is
    the one obtained without the trailing odd byte; it has
    [numChannels] channels of [floor (sampleCount / numChannels)]
    frames; and frame [i] of channel [c] is the signed 16-bit
    little-endian sample of index [i * numChannels + c] divided by
    32768. *)
Theorem decodeAudioData_deinterleaves (ctx : AudioContext) (data : list byte)
  (sampleRate numChannels : Z) :
  let sampleCount := (length data / 2)%nat in
  let frameCount := Z.to_nat (Z.of_nat sampleCount / numChannels) in
  (1 <= numChannels <= maxChannels ctx)%Z ->
  (minSampleRate ctx <= sampleRate <= maxSampleRate ctx)%Z ->
  (numChannels <= Z.of_nat sampleCount)%Z ->
  (Z.of_nat sampleCount / numChannels < 4294967296)%Z ->
  exists buffer,
    Audio.decodeAudioData (Some data) ctx sampleRate numChannels = Some buffer
    /\ Audio.decodeAudioData (Some (take (2 * sampleCount) data)) ctx sampleRate
         numChannels = Some buffer
    /\ numberOfChannels buffer = Z.to_nat numChannels
    /\ frames buffer = frameCount
    /\ (forall c row, channelData buffer !! c = Some row -> length row = frameCount)
    /\ (forall c i,
          (c < Z.to_nat numChannels)%nat -> (i < frameCount)%nat ->
          get_sample buffer c i
          = Some (Num (inject_Z (int16_at data (i * Z.to_nat numChannels + c))
                       / inject_Z 32768))).
Proof.
  intros sampleCount frameCount Hch Hrate Hframe Hwrap.
  destruct numChannels as [|p|p]; try lia.
  assert (Hdiv : (Z.of_nat sampleCount / Z.pos p * Z.pos p <= Z.of_nat sampleCount)%Z)
    by (rewrite Z.mul_comm; apply Z.mul_div_le; lia).
  assert (Hlen : (2 * sampleCount <= length data)%nat).
  { unfold sampleCount. pose proof (Nat.div_mod_eq (length data) 2). lia. }
  assert (Htake : (length (take (2 * sampleCount) data) / 2)%nat = sampleCount).
  { rewrite length_take, Nat.min_l by lia.
    rewrite Nat.mul_comm. apply Nat.div_mul. lia. }
  eexists. split; [|split; [|split; [|split; [|split]]]].
  - apply decodeAudioData_closed; fold sampleCount; lia.
  - rewrite decodeAudioData_closed; rewrite ?Htake; try lia.
    do 2 f_equal. apply map_ext_in. intros c Hc. apply in_seq in Hc.
    apply map_ext_in. intros i Hi. apply in_seq in Hi.
    unfold normalized_sample. rewrite int16_at_take; [reflexivity|].
    fold sampleCount in Hi.
    assert (Z.of_nat i + 1 <= Z.of_nat sampleCount / Z.pos p)%Z by lia.
    nia.
  - unfold numberOfChannels. cbn [channelData].
    rewrite length_map, length_seq. lia.
  - unfold frames. cbn [channelData].
    rewrite list_lookup_fmap, lookup_seq_lt by lia. simpl.
    now rewrite length_map, length_seq.
  - cbn [channelData]. intros c row Hrow.
    rewrite list_lookup_fmap in Hrow.
    destruct (seq 0 (Pos.to_nat p) !! c); [|discriminate].
    injection Hrow as <-. now rewrite length_map, length_seq.
  - intros c i Hc Hi. unfold get_sample. cbn [channelData].
    rewrite list_lookup_fmap, lookup_seq_lt by lia.
    cbn [fmap option_fmap option_map mbind option_bind Nat.add].
    rewrite list_lookup_fmap, lookup_seq_lt by (fold sampleCount; lia).
    cbn [fmap option_fmap option_map Nat.add]. unfold normalized_sample.
    replace (Z.to_nat (Z.pos p)) with (Pos.to_nat p) by lia.
    reflexivity.
Qed.

(** A 4-byte input with one channel: two frames, each its sample over
    32768. *)
Lemma decodeAudioData_deinterleaves_witness :
  exists buffer,
    Audio.decodeAudioData (Some [x00; x40; x00; xc0]) test_ctx 24000 1 = Some buffer
    /\ frames buffer = 2%nat
    /\ get_sample buffer 0 0 = Some (Num (inject_Z 16384 / inject_Z 32768))
    /\ get_sample buffer 0 1 = Some (Num (inject_Z (-16384) / inject_Z 32768)).
Proof.
  destruct (decodeAudioData_deinterleaves test_ctx [x00; x40; x00; xc0] 24000 1)
    as (buffer & H & _ & _ & Hf & _ & Hs); try (vm_compute; intuition discriminate).
  exists buffer. split; [exact H|]. split; [exact Hf|].
  split; [apply (Hs 0%nat 0%nat) | apply (Hs 0%nat 1%nat)]; vm_compute; lia.
Defined.

(** Where the guards of [decodeAudioData] apply, the result is one
    silent frame per channel. *)
Lemma decodeAudioData_silent (ctx : AudioContext) (data : option (list byte))
  (sampleRate numChannels : Z) :
  (1 <= numChannels <= maxChannels ctx)%Z ->
  (minSampleRate ctx <= sampleRate <= maxSampleRate ctx)%Z ->
  (from_option length 0 data < 2)%nat ->
  Audio.decodeAudioData data ctx sampleRate numChannels
  = Some {| JS.sampleRate := sampleRate;
            channelData := replicate (Z.to_nat numChannels) [Num 0] |}.
Proof.
  intros Hch Hrate Hlen.
  assert (E : createBuffer ctx numChannels (of_Z 1) sampleRate
              = Some {| JS.sampleRate := sampleRate;
                        channelData := replicate (Z.to_nat numChannels) [Num 0] |}).
  { unfold createBuffer. change (toUint32 (of_Z 1)) with 1%Z.
    destruct (Z.leb_spec 1 numChannels); [|lia].
    destruct (Z.leb_spec numChannels (maxChannels ctx)); [|lia].
    destruct (Z.leb_spec (minSampleRate ctx) sampleRate); [|lia].
    destruct (Z.leb_spec sampleRate (maxSampleRate ctx)); [|lia].
    reflexivity. }
  destruct data as [[|b [|? ?]]|]; simpl in Hlen; try lia; try exact E.
  unfold Audio.decodeAudioData. cbn [length Nat.div Nat.divmod fst Nat.mul].
  destruct numChannels as [|p|p]; try lia.
  change (length (Int16Array_view [b] (0 * 2 / 2))) with 0%nat.
  cbn [Z.of_nat].
  rewrite js_div_pos, js_le_ratio by lia. exact E.
Qed.

(** With fewer samples than channels, but at least one, the quotient is
    positive and below 1: the guard is passed and [createBuffer] gets a
    length of 0. *)
Lemma decodeAudioData_partial_frame_fails (ctx : AudioContext) (data : list byte)
  (sampleRate : Z) (p : positive) :
  (0 < Z.of_nat (length data / 2) < Z.pos p)%Z ->
  Audio.decodeAudioData (Some data) ctx sampleRate (Z.pos p) = None.
Proof.
  intros Hn.
  destruct data as [|b0 r]; [simpl in Hn; lia|].
  unfold Audio.decodeAudioData.
  revert Hn. generalize (b0 :: r). clear b0 r. intros data Hn.
  rewrite Nat.div_mul by lia.
  rewrite !Int16Array_view_length.
  rewrite !js_div_pos, js_le_ratio by lia.
  destruct (Z.ltb_spec 0 (Z.of_nat (length data / 2))); [|lia]. cbn [negb].
  unfold createBuffer, toUint32.
  rewrite truncate_ratio, Z.div_small by lia.
  change (1 <=? 0 mod 4294967296)%Z with false.
  now rewrite !andb_false_r.
Qed.

(** C9. The guard [frameCount <= 0] of [decodeAudioData] compares the
    unrounded quotient: a two-byte input with two channels holds no
    complete frame (floor (1 / 2) = 0), the quotient 1/2 passes the
    guard, and [createBuffer] is called with a length of 0 and throws,
    on every context and at every rate. *)
Theorem decodeAudioData_partial_frame_throws (ctx : AudioContext) (sampleRate : Z) :
  (Z.of_nat (length [x00; x40] / 2) / 2 <= 0)%Z
  /\ Audio.decodeAudioData (Some [x00; x40]) ctx sampleRate 2 = None.
Proof.
  split; [vm_compute; discriminate|].
  unfold Audio.decodeAudioData.
  cbn [length Nat.div Nat.divmod fst Nat.mul].
  change (length (Int16Array_view [x00; x40] (1 * 2 / 2))) with 1%nat.
  cbn [Z.of_nat Pos.of_succ_nat].
  rewrite js_div_pos, js_le_ratio by lia. cbn [Z.ltb Z.compare negb].
  unfold createBuffer.
  change (toUint32 (Num (inject_Z 1 / inject_Z 2))) with 0%Z.
  cbn [Z.leb Z.compare].
  now rewrite !andb_false_r.
Qed.

(** ** The transcoder *)

Example quantize_values :
  map Audio.quantize
    [Num 1; Num (-1); Num 0; Num (1 # 2); Num (-1 # 2); Num 3; Num (-3);
     Num (-1 # 65536); PosInf; NegInf; NaN]
  = [32767; -32768; 0; 16383; -16384; 32767; -32768; 0; 32767; -32768; 0]%Z.
Proof. vm_compute. reflexivity. Qed.


Lemma quantize_clamped (x : Q) :
  Audio.quantize (Num x) = toInt16 (Num (clamp x * scale (clamp x))).
Proof.
  unfold Audio.quantize, clamp, scale.
  cbn [Math_min Math_max of_Z js_le].
  change (inject_Z 1) with 1%Q. change (inject_Z (-1)) with (-1)%Q.
  destruct (Qle_bool 1 x) eqn:E1.
  - reflexivity.
  - cbn [Math_max js_le].
    destruct (Qle_bool (-1) x) eqn:E2; cbn [js_lt of_Z js_mul].
    + change (inject_Z 0) with 0%Q.
      now destruct (Qle_bool 0 x).
    + reflexivity.
Qed.







(** ** The streaming promise *)

Lemma nonempty_app {A : Type} (l k : list A) :
  nonempty (l ++ k) = nonempty l || nonempty k.
Proof. now destruct l, k. Qed.

Lemma nonempty_true {A : Type} (l : list A) : nonempty l = true <-> l <> [].
Proof. destruct l; simpl; split; congruence. Qed.

Lemma resolve_combined_spec (st : State) (rest : list Action) :
  resolve_combined st rest = Resolve (combined (accumulatedAudioChunks st)) :: rest.
Proof. unfold resolve_combined. now rewrite combineBase64Chunks_spec. Qed.

Lemma receive_parts (ps : list Part) (st : State) :
  let st' := foldl receive_part st ps in
  accumulatedAudioChunks st' = accumulatedAudioChunks st ++ flat_map part_chunks ps
  /\ accumulatedText st' = accumulatedText st ++ flat_map part_text ps
  /\ isResolved st' = isResolved st
  /\ hasReceivedAudio st'
     = hasReceivedAudio st || nonempty (flat_map part_chunks ps).
Proof.
  revert st. induction ps as [|part ps IH]; intros st.
  - simpl. rewrite !app_nil_r, orb_false_r. auto.
  - cbn [foldl flat_map]. destruct (IH (receive_part st part)) as (H1 & H2 & H3 & H4).
    cbv zeta. rewrite H1, H2, H3, H4. clear IH H1 H2 H3 H4.
    unfold receive_part, part_chunks, part_text.
    destruct (truthy (inlineData part)), (truthy (text part));
      cbn [accumulatedAudioChunks accumulatedText isResolved hasReceivedAudio app];
      rewrite <- ?app_assoc, ?app_nil_r;
      repeat split; try reflexivity;
      destruct (hasReceivedAudio st); reflexivity.
Qed.

(** What one event does to the shared variables. *)
Lemma step_state (st : State) (ev : Event) :
  let st' := fst (step st ev) in
  accumulatedAudioChunks st' = accumulatedAudioChunks st ++ event_chunks ev
  /\ accumulatedText st' = accumulatedText st ++ event_text ev
  /\ hasReceivedAudio st'
     = hasReceivedAudio st || nonempty (event_chunks ev).
Proof.
  destruct ev as [|message|message| |]; cbn [step event_chunks event_text].
  - simpl. rewrite !app_nil_r, orb_false_r. auto.
  - unfold onmessage.
    destruct (receive_parts (parts message) st) as (H1 & H2 & _ & H4).
    cbv zeta in *.
    destruct (turnComplete message); [|auto].
    destruct (negb (isResolved _)); [|auto].
    destruct (hasReceivedAudio (foldl _ _ _)) eqn:E; [now rewrite <- E in *|].
    destruct (0 <? _)%nat; [now rewrite <- E in * | now rewrite <- E in *].
  - unfold onerror. destruct (negb (isResolved st)); simpl;
      rewrite !app_nil_r, orb_false_r; auto.
  - unfold onclose. destruct (negb (isResolved st)); simpl;
      rewrite !app_nil_r, orb_false_r; auto.
  - unfold ontimeout. destruct (negb (isResolved st));
      [destruct (0 <? _)%nat|]; simpl; rewrite !app_nil_r, orb_false_r; auto.
Qed.

(** Whether one event settles the promise: never when it is already
    settled, and with exactly one call otherwise. *)
Lemma step_settles (st : State) (ev : Event) :
  let '(st', out) := step st ev in
  if isResolved st
  then isResolved st' = true /\ settlements out = []
  else (isResolved st' = false /\ settlements out = [])
       \/ (isResolved st' = true /\ exists a, settlements out = [a]).
Proof.
  destruct ev as [|message|message| |]; cbn [step].
  - destruct (isResolved st); auto.
  - unfold onmessage.
    destruct (receive_parts (parts message) st) as (_ & _ & H3 & _).
    cbv zeta in H3. set (st1 := foldl receive_part st (parts message)) in *.
    destruct (turnComplete message).
    + rewrite H3. destruct (isResolved st) eqn:E; cbn [negb].
      * rewrite <- H3 in E. auto.
      * destruct (hasReceivedAudio st1).
        { right. split; [reflexivity|]. rewrite resolve_combined_spec. eauto. }
        destruct (0 <? _)%nat; [right; split; [reflexivity|]; simpl; eauto|].
        left. rewrite H3. auto.
    + rewrite H3. destruct (isResolved st); auto.
  - unfold onerror. destruct (isResolved st) eqn:E; cbn [negb]; [auto|].
    right. split; [reflexivity|]. simpl. eauto.
  - unfold onclose. destruct (isResolved st) eqn:E; cbn [negb]; [auto|].
    right. split; [reflexivity|].
    destruct (0 <? _)%nat; [rewrite resolve_combined_spec|]; simpl; eauto.
  - unfold ontimeout. destruct (isResolved st) eqn:E; cbn [negb]; [auto|].
    destruct (0 <? _)%nat; cbv beta iota; right; (split; [reflexivity|]);
      [rewrite resolve_combined_spec|]; simpl; eauto.
Qed.

(** An event that ends the exchange settles a pending promise. *)
Lemma final_settles (st : State) (ev : Event) :
  is_final ev = true -> isResolved (fst (step st ev)) = true.
Proof.
  destruct ev as [|message|message| |]; try discriminate; intros _; cbn [step].
  - unfold onerror. destruct (isResolved st) eqn:E; cbn [negb]; [exact E|reflexivity].
  - unfold onclose. destruct (isResolved st) eqn:E; cbn [negb]; [exact E|reflexivity].
  - unfold ontimeout. destruct (isResolved st) eqn:E; cbn [negb]; [exact E|].
    now destruct (0 <? _)%nat.
Qed.

Lemma run_snoc (evs : list Event) (ev : Event) :
  run (evs ++ [ev])
  = (fst (step (fst (run evs)) ev), snd (run evs) ++ snd (step (fst (run evs)) ev)).
Proof.
  unfold run, run_from. rewrite foldl_app. cbn [foldl].
  now destruct (step _ ev).
Qed.

Lemma settlements_app (o1 o2 : list Action) :
  settlements (o1 ++ o2) = settlements o1 ++ settlements o2.
Proof. apply List.filter_app. Qed.

(** The invariant of the exchange. *)
Lemma run_invariant (evs : list Event) :
  let st := fst (run evs) in
  let out := snd (run evs) in
  accumulatedAudioChunks st = received_chunks evs
  /\ accumulatedText st = received_text evs
  /\ hasReceivedAudio st = nonempty (received_chunks evs)
  /\ (if isResolved st then exists a, settlements out = [a] else settlements out = [])
  /\ (existsb is_final evs = true -> isResolved st = true).
Proof.
  induction evs as [|ev evs IH] using rev_ind.
  - cbn. repeat split; try reflexivity. discriminate.
  - destruct IH as (H1 & H2 & H3 & H4 & H5).
    rewrite run_snoc. cbn [fst snd].
    set (st := fst (run evs)) in *. set (out := snd (run evs)) in *.
    destruct (step_state st ev) as (S1 & S2 & S3).
    pose proof (step_settles st ev) as S4.
    pose proof (final_settles st ev) as S5.
    destruct (step st ev) as [st' o] eqn:E. cbn [fst snd] in *.
    unfold received_chunks, received_text in *.
    rewrite !flat_map_app. cbn [flat_map]. rewrite !app_nil_r.
    rewrite S1, S2, S3, H1, H2, H3, settlements_app.
    rewrite nonempty_app.
    split; [reflexivity|]. split; [reflexivity|]. split; [reflexivity|].
    split.
    { destruct (isResolved st).
      - destruct S4 as [-> ->]. now rewrite app_nil_r.
      - rewrite H4. destruct S4 as [[-> ->]|[-> S4]]; [reflexivity|exact S4]. }
    rewrite existsb_app. cbn [existsb]. rewrite orb_false_r.
    intros F. apply orb_true_iff in F as [F|F].
    + apply H5 in F. rewrite F in S4. now destruct S4.
    + now apply S5.
Qed.

Lemma run_app_out (evs evs' : list Event) :
  exists out, snd (run (evs ++ evs')) = snd (run evs) ++ out.
Proof.
  induction evs' as [|ev evs' IH] using rev_ind.
  - exists []. now rewrite !app_nil_r.
  - destruct IH as [out IH]. rewrite app_assoc, run_snoc. cbn [snd].
    rewrite IH, <- app_assoc. eauto.
Qed.

Lemma settlements_at_most_one (evs : list Event) :
  (length (settlements (snd (run evs))) <= 1)%nat.
Proof.
  destruct (run_invariant evs) as (_ & _ & _ & H & _).
  destruct (isResolved (fst (run evs))); [destruct H as [a ->]|rewrite H]; simpl; lia.
Qed.

(** C7. Whatever the sequence of callback events, [resolve] and [reject]
    are called at most once in total; exactly once as soon as the
    sequence holds an error, a close or the timeout; and once one of
    them has been called, no later event calls either again. *)
Theorem generateSpeech_settles_once (evs : list Event) :
  (length (settlements (snd (run evs))) <= 1)%nat
  /\ (existsb is_final evs = true -> length (settlements (snd (run evs))) = 1%nat)
  /\ (forall evs',
        settlements (snd (run evs)) <> [] ->
        settlements (snd (run (evs ++ evs'))) = settlements (snd (run evs))).
Proof.
  split; [apply settlements_at_most_one|]. split.
  - intros F. destruct (run_invariant evs) as (_ & _ & _ & H & R).
    rewrite (R F) in H. now destruct H as [a ->].
  - intros evs' Hne.
    pose proof (settlements_at_most_one (evs ++ evs')) as L.
    destruct (run_app_out evs evs') as [out E].
    rewrite E, settlements_app in *.
    destruct (settlements (snd (run evs))) as [|a r]; [congruence|].
    rewrite length_app in L. cbn [length] in L.
    destruct r; [|simpl in L; lia].
    destruct (settlements out); [reflexivity|simpl in L; lia].
Qed.

(** A turn that completes with audio, then a close, the timer and an
    error: the promise is settled once, by the turn completion. *)
Lemma generateSpeech_settles_once_witness :
  settlements
    (snd (run [OnOpen; OnMessage (audio_message (lit "AAEC")); OnMessage turn_complete;
               OnClose; Timeout; OnError None]))
  = [Resolve (lit "AAEC")]
  /\ length
       (settlements
          (snd (run [OnOpen; OnMessage (audio_message (lit "AAEC"));
                     OnMessage turn_complete; OnClose; Timeout; OnError None])))
     = 1%nat.
Proof.
  split; [vm_compute; reflexivity|].
  apply (proj1 (proj2 (generateSpeech_settles_once _))).
  reflexivity.
Defined.

(** C8. When a close or the timeout reaches a pending promise, the
    promise is resolved with [combineBase64Chunks] of the chunks
    received so far, in order, if there is at least one, and rejected
    if there is none. *)
Theorem generateSpeech_partial_success (evs : list Event) (ev : Event) :
  ev = OnClose \/ ev = Timeout ->
  isResolved (fst (run evs)) = false ->
  let chunks := received_chunks evs in
  let out := settlements (snd (run (evs ++ [ev]))) in
  (chunks <> [] ->
   exists value, combineBase64Chunks chunks = Some value /\ out = [Resolve value])
  /\ (chunks = [] -> exists error, out = [Reject error]).
Proof.
  intros Hev Hpending chunks out.
  destruct (run_invariant evs) as (H1 & _ & _ & H4 & _).
  rewrite Hpending in H4.
  unfold out. rewrite run_snoc. cbn [snd]. rewrite settlements_app, H4. cbn [app].
  fold chunks in H1.
  assert (L : (0 <? length (accumulatedAudioChunks (fst (run evs))))%nat
              = nonempty chunks).
  { rewrite H1. now destruct chunks. }
  split.
  - intros Hne. apply nonempty_true in Hne.
    exists (combined chunks). split; [apply combineBase64Chunks_spec|].
    destruct Hev as [-> | ->]; cbn [step]; unfold onclose, ontimeout;
      rewrite Hpending, L, Hne; cbn [negb snd];
      rewrite resolve_combined_spec, H1; reflexivity.
  - intros Hnil.
    destruct Hev as [-> | ->]; cbn [step]; unfold onclose, ontimeout;
      rewrite Hpending, L, Hnil; cbn [negb snd nonempty]; simpl; eauto.
Qed.

(** Three chunks, then an abrupt close: the promise resolves with the
    three chunks combined. *)
Lemma generateSpeech_partial_success_witness :
  exists value,
    combineBase64Chunks [lit "AAEC"; lit "AwQ="; lit "BQ=="] = Some value
    /\ settlements
         (snd (run ([OnMessage (audio_message (lit "AAEC"));
                     OnMessage (audio_message (lit "AwQ="));
                     OnMessage (audio_message (lit "BQ=="))] ++ [OnClose])))
       = [Resolve value].
Proof.
  apply (proj1 (generateSpeech_partial_success
                  [OnMessage (audio_message (lit "AAEC"));
                   OnMessage (audio_message (lit "AwQ="));
                   OnMessage (audio_message (lit "BQ=="))] OnClose
                  (or_introl eq_refl) eq_refl)).
  vm_compute. discriminate.
Defined.

(** The shared variables when [onmessage] reaches its decision. *)
Lemma received_after_message (evs : list Event) (message : Message) :
  let st1 := foldl receive_part (fst (run evs)) (parts message) in
  let evs' := evs ++ [OnMessage message] in
  accumulatedAudioChunks st1 = received_chunks evs'
  /\ accumulatedText st1 = received_text evs'
  /\ isResolved st1 = isResolved (fst (run evs))
  /\ hasReceivedAudio st1 = nonempty (received_chunks evs').
Proof.
  destruct (run_invariant evs) as (H1 & H2 & H3 & _).
  destruct (receive_parts (parts message) (fst (run evs))) as (R1 & R2 & R3 & R4).
  cbv zeta in *. unfold received_chunks, received_text in *.
  rewrite !flat_map_app. cbn [flat_map event_chunks event_text].
  rewrite !app_nil_r, nonempty_app.
  rewrite R1, R2, R3, R4, H1, H2, H3. auto.
Qed.

(** C10. When a turn-complete message reaches a pending promise, the
    promise is resolved (with the combined chunks) exactly when at
    least one audio chunk has been received, the chunks of that message
    included; rejected exactly when no chunk has been received and the
    trimmed text is not empty; otherwise nothing is called, the promise
    stays pending, and any later error, close or timeout settles it. *)
Theorem generateSpeech_turn_complete (evs : list Event) (message : Message) :
  turnComplete message = true ->
  isResolved (fst (run evs)) = false ->
  let evs' := evs ++ [OnMessage message] in
  let chunks := received_chunks evs' in
  let text := received_text evs' in
  let out := settlements (snd (run evs')) in
  ((exists value, out = [Resolve value]) <-> chunks <> [])
  /\ (chunks <> [] ->
      exists value, combineBase64Chunks chunks = Some value /\ out = [Resolve value])
  /\ ((exists error, out = [Reject error]) <-> chunks = [] /\ trim text <> [])
  /\ (chunks = [] -> trim text = [] ->
      out = []
      /\ isResolved (fst (run evs')) = false
      /\ forall ev, is_final ev = true ->
           exists a, settlements (snd (run (evs' ++ [ev]))) = [a]).
Proof.
  intros Hturn Hpending evs' chunks text out.
  destruct (run_invariant evs) as (_ & _ & _ & H4 & _).
  rewrite Hpending in H4.
  destruct (received_after_message evs message) as (R1 & R2 & R3 & R4).
  cbv zeta in *. fold evs' in R1, R2, R4. fold chunks in R1, R4. fold text in R2.
  assert (E : run evs'
              = (if nonempty chunks
                 then (set_resolved (foldl receive_part (fst (run evs)) (parts message)),
                       snd (run evs) ++ [Resolve (combined chunks); CloseSession])
                 else if (0 <? length (trim text))%nat
                 then (set_resolved (foldl receive_part (fst (run evs)) (parts message)),
                       snd (run evs)
                         ++ [Reject (lit "Vocal Replication Error: " ++ text);
                             CloseSession])
                 else (foldl receive_part (fst (run evs)) (parts message),
                       snd (run evs) ++ []))).
  { unfold evs'. rewrite run_snoc. cbn [step]. unfold onmessage.
    rewrite Hturn, R3, Hpending, R4, R2. cbn [negb].
    destruct (nonempty chunks); cbn [fst snd];
      [now rewrite resolve_combined_spec, R1|].
    now destruct (0 <? length (trim text))%nat. }
  assert (O : out = if nonempty chunks then [Resolve (combined chunks)]
                    else if (0 <? length (trim text))%nat
                    then [Reject (lit "Vocal Replication Error: " ++ text)]
                    else []).
  { unfold out. rewrite E.
    destruct (nonempty chunks); [|destruct (0 <? _)%nat]; cbn [snd];
      rewrite settlements_app, H4; reflexivity. }
  assert (T : (0 <? length (trim text))%nat = nonempty (trim text))
    by now destruct (trim text).
  rewrite T in O, E. clear T.
  pose proof (nonempty_true chunks) as NC.
  pose proof (nonempty_true (trim text)) as NT.
  destruct (nonempty chunks) eqn:EC.
  - assert (Hne : chunks <> []) by now apply NC.
    repeat split.
    + intros _. exact Hne.
    + intros _. eauto.
    + intros _. exists (combined chunks). split; [apply combineBase64Chunks_spec|exact O].
    + destruct H as [e He]. congruence.
    + destruct H as [e He]. congruence.
    + intros [Hnil _]. congruence.
    + congruence.
    + congruence.
    + congruence.
  - assert (Hnil : chunks = []) by (destruct chunks; [reflexivity|discriminate]).
    split; [|split; [|split]].
    + split; [|congruence]. intros [v Hv]. rewrite O in Hv.
      destruct (nonempty (trim text)); discriminate.
    + congruence.
    + split.
      * intros [e He]. split; [exact Hnil|]. rewrite O in He.
        destruct (nonempty (trim text)); [now apply NT | discriminate].
      * intros [_ Ht]. apply NT in Ht. rewrite Ht in O. eauto.
    + intros _ Ht. rewrite Ht in O, E. cbn [nonempty] in O, E.
      split; [exact O|]. split; [rewrite E; cbn [fst]; now rewrite R3|].
      intros ev Hev.
      destruct (run_invariant (evs' ++ [ev])) as (_ & _ & _ & H & R).
      rewrite R in H; [exact H|].
      rewrite existsb_app. cbn [existsb]. rewrite Hev. now rewrite orb_true_r.
Qed.

(** A turn that completes with nothing but blanks stays pending until
    the timeout rejects it. *)
Lemma generateSpeech_turn_complete_witness :
  settlements
    (snd (run ([OnOpen] ++ [OnMessage {| parts := [text_part (lit "  ")];
                                          turnComplete := true |}])))
  = []
  /\ exists a,
       settlements
         (snd (run (([OnOpen] ++ [OnMessage {| parts := [text_part (lit "  ")];
                                                turnComplete := true |}])
                    ++ [Timeout])))
       = [a].
Proof.
  destruct (generateSpeech_turn_complete [OnOpen]
              {| parts := [text_part (lit "  ")]; turnComplete := true |}
              eq_refl eq_refl) as (_ & _ & _ & H).
  destruct (H eq_refl eq_refl) as (H1 & _ & H3).
  split; [exact H1 | exact (H3 Timeout eq_refl)].
Defined.

(** * Further properties of the code *)

(** ** The codec *)

Lemma b64_char_valid (k : N) : base64_char (b64_char k) = true.
Proof.
  unfold base64_char.
  assert (H : exists j, b64_index (b64_char k) = Some j).
  { unfold b64_char.
    destruct (N.ltb_spec k 26); [|destruct (N.ltb_spec k 52);
      [|destruct (N.ltb_spec k 62); [|destruct (N.eqb_spec k 62)]]];
      unfold b64_index;
      repeat match goal with
        | |- context [N.leb ?a ?b] => destruct (N.leb_spec a b)
        | |- context [N.eqb ?a ?b] => destruct (N.eqb_spec a b)
        end; simpl; try lia; eexists; reflexivity. }
  destruct H as [j ->]. reflexivity.
Qed.

Lemma b64_encode_chars (l : list N) :
  Forall (fun c => base64_char c = true /\ is_ascii_whitespace c = false)
    (b64_encode l).
Proof.
  induction l as [| a | a b | a b c r IH] using list_ind3;
    cbn [b64_encode]; repeat constructor;
    auto using b64_char_valid, b64_char_not_whitespace.
Qed.

Lemma b64_encode_length_exact (l : list N) :
  length (b64_encode l) = (4 * ((length l + 2) / 3))%nat.
Proof.
  induction l as [| a | a b | a b c r IH] using list_ind3; try reflexivity.
  cbn [b64_encode length]. rewrite IH.
  replace (S (S (S (length r))) + 2)%nat with (length r + 2 + 1 * 3)%nat by lia.
  rewrite Nat.div_add by lia. lia.
Qed.

(** X1. [encode] writes four characters for every three bytes, rounded
    up, all of them of the base64 alphabet or the padding sign: never a
    line break or a blank. *)
Theorem encode_valid_base64 (bytes : list byte) :
  exists s,
    Audio.encode bytes = Some s
    /\ length s = (4 * ((length bytes + 2) / 3))%nat
    /\ Forall (fun c => base64_char c = true /\ is_ascii_whitespace c = false) s.
Proof.
  exists (b64_encode (binary_of bytes)). split; [apply encode_spec|]. split.
  - rewrite b64_encode_length_exact. unfold binary_of. now rewrite length_map.
  - apply b64_encode_chars.
Qed.

(** X2. Two byte sequences with the same encoding are equal. *)
Theorem encode_injective (b1 b2 : list byte) :
  Audio.encode b1 = Audio.encode b2 -> b1 = b2.
Proof.
  rewrite !encode_spec. intros [= E].
  pose proof (decode_encoded b1) as D1.
  rewrite E, decode_encoded in D1. congruence.
Qed.

Lemma encode_injective_witness : [x01; x02] = [x01; x02].
Proof. apply (encode_injective [x01; x02] [x01; x02]). reflexivity. Defined.

Lemma drop_padding_keeps (c : N) (d : jsstring) :
  c <> pad -> In c d -> In c (drop_padding d).
Proof.
  intros Hc. induction d as [|x r IH]; intros Hin; [assumption|].
  cbn [drop_padding].
  destruct (is_pad_tail (x :: r)) eqn:E.
  - exfalso. destruct r as [|y [|? ?]]; cbn [is_pad_tail] in E; try discriminate.
    + apply N.eqb_eq in E. destruct Hin as [<-|[]]. congruence.
    + apply andb_true_iff in E as [E1 E2].
      apply N.eqb_eq in E1, E2. destruct Hin as [<-|[<-|[]]]; congruence.
  - destruct Hin as [<-|Hin]; [now left|right; auto].
Qed.

Lemma atob_foreign_character (s : jsstring) (c : N) :
  In c s -> is_ascii_whitespace c = false -> c <> pad -> b64_index c = None ->
  atob s = None.
Proof.
  intros Hin Hws Hpad Hidx. unfold atob.
  set (d := List.filter _ s).
  assert (Hd : In c d).
  { apply filter_In. split; [assumption|]. now rewrite Hws. }
  set (d' := if _ =? 0 then drop_padding d else d).
  assert (Hd' : In c d').
  { unfold d'. destruct (_ =? 0); [now apply drop_padding_keeps|assumption]. }
  destruct (_ =? 1); [reflexivity|].
  replace (mapM b64_index d') with (@None (list N)); [reflexivity|].
  symmetry. apply mapM_None_2. apply Exists_exists.
  exists c. split; [now apply list_elem_of_In|assumption].
Qed.

(** X3. [decode] throws on every string that holds a character which is
    neither of the base64 alphabet, nor ASCII whitespace, nor the
    padding sign: it never returns bytes for such a string. *)
Theorem decode_rejects_foreign_character (s : jsstring) (c : N) :
  In c s -> is_ascii_whitespace c = false -> c <> pad -> b64_index c = None ->
  Audio.decode s = None.
Proof.
  intros Hin Hws Hpad Hidx. unfold Audio.decode.
  destruct s as [|x r]; [destruct Hin|].
  now rewrite (atob_foreign_character (x :: r) c).
Qed.

Lemma decode_rejects_foreign_character_witness :
  Audio.decode (lit "AB!D") = None.
Proof.
  apply (decode_rejects_foreign_character (lit "AB!D") 33).
  - vm_compute. auto.
  - reflexivity.
  - discriminate.
  - reflexivity.
Defined.

(** ** Chunk reassembly *)

Lemma decode_combined (chunks : list jsstring) :
  Audio.decode (combined chunks) = Some (concat (map chunk_bytes chunks)).
Proof. apply decode_encoded. Qed.

(** X4. [combineBase64Chunks] never throws, and the payload of two lists
    of chunks put end to end decodes to the bytes of the first payload
    followed by the bytes of the second. *)
Theorem combineBase64Chunks_app (l1 l2 : list jsstring) :
  exists s1 s2 s b1 b2,
    combineBase64Chunks l1 = Some s1
    /\ combineBase64Chunks l2 = Some s2
    /\ combineBase64Chunks (l1 ++ l2) = Some s
    /\ Audio.decode s1 = Some b1
    /\ Audio.decode s2 = Some b2
    /\ Audio.decode s = Some (b1 ++ b2).
Proof.
  exists (combined l1), (combined l2), (combined (l1 ++ l2)),
         (concat (map chunk_bytes l1)), (concat (map chunk_bytes l2)).
  repeat split; try apply combineBase64Chunks_spec; try apply decode_combined.
  rewrite decode_combined, map_app, concat_app. reflexivity.
Qed.

(** X5. A chunk [atob] rejects is skipped: the result is the one
    obtained without it. *)
Theorem combineBase64Chunks_skips_corrupt (l1 l2 : list jsstring) (c : jsstring) :
  atob c = None ->
  combineBase64Chunks (l1 ++ c :: l2) = combineBase64Chunks (l1 ++ l2).
Proof.
  intros Hc. rewrite !combineBase64Chunks_spec, !map_app, !concat_app.
  cbn [map concat]. unfold chunk_bytes at 2. rewrite Hc. reflexivity.
Qed.

Lemma combineBase64Chunks_skips_corrupt_witness :
  combineBase64Chunks ([lit "AAEC"] ++ lit "A" :: [lit "AwQ="])
  = combineBase64Chunks ([lit "AAEC"] ++ [lit "AwQ="]).
Proof.
  apply (combineBase64Chunks_skips_corrupt [lit "AAEC"] [lit "AwQ="] (lit "A")).
  reflexivity.
Defined.

(** X6. Combining the combined payload again gives the same payload. *)
Theorem combineBase64Chunks_idempotent (chunks : list jsstring) :
  exists s, combineBase64Chunks chunks = Some s /\ combineBase64Chunks [s] = Some s.
Proof.
  exists (combined chunks). split; [apply combineBase64Chunks_spec|].
  rewrite combineBase64Chunks_spec. cbn [map concat].
  unfold combined at 1. rewrite chunk_bytes_encoded, app_nil_r. reflexivity.
Qed.

(** ** The WAV encoder *)

Lemma array_set_lookup {A : Type} (t src t' : list A) (offset : nat) :
  array_set t src offset = Some t' ->
  length t' = length t
  /\ (forall i, (i < length src)%nat -> t' !! (offset + i)%nat = src !! i)
  /\ (forall j, (j < offset \/ offset + length src <= j)%nat -> t' !! j = t !! j).
Proof.
  unfold array_set.
  destruct (Nat.leb_spec (offset + length src) (length t)); [|discriminate].
  intros [= <-]. split; [|split].
  - rewrite !length_app, length_take, length_drop. lia.
  - intros i Hi.
    rewrite lookup_app_r by (rewrite length_take; lia).
    rewrite length_take, lookup_app_l by lia. f_equal. lia.
  - intros j [Hj|Hj].
    + rewrite lookup_app_l by (rewrite length_take; lia).
      now rewrite lookup_take_lt.
    + rewrite lookup_app_r by (rewrite length_take; lia).
      rewrite lookup_app_r by (rewrite length_take; lia).
      rewrite lookup_drop, length_take. f_equal. lia.
Qed.

Lemma setUint8_length (view view' : list byte) (offset : nat) (v : Z) :
  setUint8 view offset v = Some view' -> length view' = length view.
Proof.
  unfold setUint8. destruct (offset <? length view)%nat; [|discriminate].
  intros [= <-]. apply length_insert.
Qed.

(** The writes of [writeString] keep the length of the view, as long as
    none has thrown. *)
Lemma writeString_prefix_length (view : list byte) (offset : nat) (s : jsstring)
  (k : nat) :
  match foldl (fun ms i =>
                 v ← ms;
                 setUint8 v (offset + i) (Z.of_N (default 0 (charCodeAt s i))))
              (Some view) (seq 0 k) with
  | Some v => length v = length view
  | None => True
  end.
Proof.
  induction k as [|k IH]; [reflexivity|].
  rewrite seq_S, foldl_app. cbn [foldl Nat.add].
  destruct (foldl _ _ (seq 0 k)) as [v|]; [|exact I].
  cbn [mbind option_bind].
  destruct (setUint8 v _ _) as [v'|] eqn:E; [|exact I].
  apply setUint8_length in E. congruence.
Qed.

(** X7. [writeString] on a string that fits at [offset] stores its code
    units, modulo 256, at consecutive offsets and changes no other byte;
    on a non-empty string that does not fit it throws. *)
Theorem writeString_bounds (view : list byte) (offset : nat) (s : jsstring) :
  ((offset + length s <= length view)%nat ->
   exists view',
     Audio.writeString view offset s = Some view'
     /\ length view' = length view
     /\ (forall i c, s !! i = Some c ->
           view' !! (offset + i)%nat = Some (byte_of_Z (Z.of_N c)))
     /\ (forall j, (j < offset \/ offset + length s <= j)%nat ->
           view' !! j = view !! j))
  /\ (s <> [] -> (length view < offset + length s)%nat ->
      Audio.writeString view offset s = None).
Proof.
  split.
  - intros Hfit. rewrite writeString_array_set by assumption.
    destruct (array_set view (map (fun c => byte_of_Z (Z.of_N c)) s) offset)
      as [view'|] eqn:E.
    + destruct (array_set_lookup _ _ _ _ E) as (L & W & K).
      rewrite length_map in W, K.
      exists view'. repeat split; try assumption.
      intros i c Hc. rewrite W by (apply lookup_lt_Some in Hc; lia).
      rewrite list_lookup_fmap. unfold jsstring in *. now rewrite Hc.
    + unfold array_set in E. rewrite length_map in E.
      destruct (Nat.leb_spec (offset + length s) (length view));
        [discriminate|lia].
  - intros Hne Hover. unfold Audio.writeString, for_rangeM.
    destruct (length s) as [|n] eqn:En; [destruct s; [congruence|discriminate]|].
    rewrite seq_S, foldl_app. cbn [foldl Nat.add].
    pose proof (writeString_prefix_length view offset s n) as P.
    destruct (foldl _ _ (seq 0 n)) as [v|]; [|reflexivity].
    cbn [mbind option_bind]. unfold setUint8.
    destruct (Nat.ltb_spec (offset + n) (length v)); [lia|reflexivity].
Qed.

Lemma writeString_bounds_witness :
  (exists view',
      Audio.writeString [x00; x00; x00; x00; x00] 1 (lit "data") = Some view'
      /\ view' !! 1%nat = Some x64)
  /\ Audio.writeString [x00; x00; x00; x00] 1 (lit "data") = None.
Proof.
  split.
  - destruct (proj1 (writeString_bounds [x00; x00; x00; x00; x00] 1 (lit "data")))
      as (view' & H & _ & W & _); [vm_compute; lia|].
    exists view'. split; [exact H|]. exact (W 0%nat 100 eq_refl).
  - apply (proj2 (writeString_bounds [x00; x00; x00; x00] 1 (lit "data")));
      [discriminate | vm_compute; lia].
Defined.

(** What [pcmToWav] returns. *)
Lemma pcmToWav_spec (pcm : list byte) (sampleRate : Z) :
  Audio.pcmToWav pcm sampleRate
  = Some {| Audio.blobBytes := wav_header (Z.of_nat (length pcm)) sampleRate ++ pcm;
            Audio.blobType := lit "audio/wav" |}.
Proof.
  unfold Audio.pcmToWav.
  rewrite replicate_add.
  assert (Ht : length (replicate (length pcm) x00) = length pcm)
    by apply length_replicate.
  revert Ht. generalize (replicate (length pcm) x00). intros t Ht.
  cbn [replicate app].
  do 13 header_write.
  change (drop 0 (drop 0 t)) with t.
  rewrite (array_set_all t pcm Ht). cbn [mbind option_bind].
  reflexivity.
Qed.

Lemma field_le_bytes (n : nat) (v : Z) (rest : list byte) :
  (0 <= v < 256 ^ Z.of_nat n)%Z -> le_value (take n (le_bytes n v ++ rest)) = v.
Proof.
  intros H.
  assert (L : forall m w, length (le_bytes m w) = m)
    by (induction m; intros w; simpl; auto).
  rewrite take_app_length' by (symmetry; apply L).
  rewrite le_value_le_bytes. now apply Z.mod_small.
Qed.

(** X8. When the sizes and the rate fit their fields, the sizes the
    header declares are those of the blob: the RIFF size is the length of
    the blob minus 8, the data size is the number of bytes after the
    header, and the byte rate is the sample rate times the block
    align. *)
Theorem pcmToWav_declared_sizes (pcm : list byte) (sampleRate : Z) :
  (0 <= sampleRate)%Z -> (sampleRate * 2 < 4294967296)%Z ->
  (Z.of_nat (length pcm) + 36 < 4294967296)%Z ->
  exists blob,
    Audio.pcmToWav pcm sampleRate = Some blob
    /\ field (Audio.blobBytes blob) 4 4 = (Z.of_nat (length (Audio.blobBytes blob)) - 8)%Z
    /\ field (Audio.blobBytes blob) 40 4
       = Z.of_nat (length (drop 44 (Audio.blobBytes blob)))
    /\ field (Audio.blobBytes blob) 24 4 = sampleRate
    /\ field (Audio.blobBytes blob) 28 4
       = (sampleRate * field (Audio.blobBytes blob) 32 2)%Z.
Proof.
  intros Hr Hr2 Hlen. eexists. split; [apply pcmToWav_spec|].
  cbn [Audio.blobBytes]. unfold field, wav_header.
  change (ascii_bytes "RIFF") with [x52; x49; x46; x46].
  change (ascii_bytes "WAVE") with [x57; x41; x56; x45].
  change (ascii_bytes "fmt ") with [x66; x6d; x74; x20].
  change (ascii_bytes "data") with [x64; x61; x74; x61].
  change (le_bytes 4 16) with [x10; x00; x00; x00].
  change (le_bytes 2 1) with [x01; x00].
  change (le_bytes 2 2) with [x02; x00].
  change (le_bytes 2 16) with [x10; x00].
  set (f1 := le_bytes 4 (36 + Z.of_nat (length pcm))).
  set (f2 := le_bytes 4 sampleRate).
  set (f3 := le_bytes 4 (sampleRate * 2)).
  set (f4 := le_bytes 4 (Z.of_nat (length pcm))).
  assert (L : forall m w, length (le_bytes m w) = m)
    by (induction m; intros w; simpl; auto).
  assert (E1 : exists a b c d, f1 = [a; b; c; d]) by (cbn; eauto).
  assert (E2 : exists a b c d, f2 = [a; b; c; d]) by (cbn; eauto).
  assert (E3 : exists a b c d, f3 = [a; b; c; d]) by (cbn; eauto).
  assert (E4 : exists a b c d, f4 = [a; b; c; d]) by (cbn; eauto).
  pose proof (field_le_bytes 4 (36 + Z.of_nat (length pcm)) []) as V1.
  pose proof (field_le_bytes 4 sampleRate []) as V2.
  pose proof (field_le_bytes 4 (sampleRate * 2) []) as V3.
  pose proof (field_le_bytes 4 (Z.of_nat (length pcm)) []) as V4.
  rewrite app_nil_r in V1, V2, V3, V4.
  fold f1 in V1. fold f2 in V2. fold f3 in V3. fold f4 in V4.
  destruct E1 as (a1 & b1 & c1 & d1 & ->), E2 as (a2 & b2 & c2 & d2 & ->),
    E3 as (a3 & b3 & c3 & d3 & ->), E4 as (a4 & b4 & c4 & d4 & ->).
  cbn [app firstn skipn length] in *.
  change (take 0 pcm) with (@nil byte). change (drop 0 pcm) with pcm.
  change (256 ^ Z.of_nat 4)%Z with 4294967296%Z in *.
  rewrite V1, V2, V3, V4 by lia.
  change (le_value [x02; x00]) with 2%Z.
  repeat split; lia.
Qed.

Lemma pcmToWav_declared_sizes_witness :
  exists blob,
    Audio.pcmToWav [x01; x02; x03; x04] 24000 = Some blob
    /\ field (Audio.blobBytes blob) 4 4 = (Z.of_nat (length (Audio.blobBytes blob)) - 8)%Z
    /\ field (Audio.blobBytes blob) 40 4
       = Z.of_nat (length (drop 44 (Audio.blobBytes blob)))
    /\ field (Audio.blobBytes blob) 24 4 = 24000%Z
    /\ field (Audio.blobBytes blob) 28 4
       = (24000 * field (Audio.blobBytes blob) 32 2)%Z.
Proof.
  apply (pcmToWav_declared_sizes [x01; x02; x03; x04] 24000);
    vm_compute; congruence.
Defined.

(** ** The PCM decoder *)

(** X9. For a null, empty or one-byte input, on a context that supports
    the channel count and the rate, [decodeAudioData] returns one frame
    of silence on every channel. *)
Theorem decodeAudioData_guards (ctx : AudioContext) (data : option (list byte))
  (sampleRate numChannels : Z) :
  (1 <= numChannels <= maxChannels ctx)%Z ->
  (minSampleRate ctx <= sampleRate <= maxSampleRate ctx)%Z ->
  (from_option length 0%nat data < 2)%nat ->
  exists buffer,
    Audio.decodeAudioData data ctx sampleRate numChannels = Some buffer
    /\ numberOfChannels buffer = Z.to_nat numChannels
    /\ frames buffer = 1%nat
    /\ forall c, (c < Z.to_nat numChannels)%nat -> get_sample buffer c 0 = Some (Num 0).
Proof.
  intros Hch Hrate Hlen. eexists.
  split; [now apply decodeAudioData_silent|].
  unfold numberOfChannels, frames, get_sample. cbn [channelData].
  split; [apply length_replicate|]. split.
  - rewrite lookup_replicate_2 by lia. reflexivity.
  - intros c Hc. rewrite lookup_replicate_2 by lia. reflexivity.
Qed.

Lemma decodeAudioData_guards_witness :
  exists buffer,
    Audio.decodeAudioData (Some [x7f]) test_ctx 24000 2 = Some buffer
    /\ numberOfChannels buffer = 2%nat
    /\ frames buffer = 1%nat
    /\ forall c, (c < 2)%nat -> get_sample buffer c 0 = Some (Num 0).
Proof.
  apply (decodeAudioData_guards test_ctx (Some [x7f]) 24000 2);
    vm_compute; intuition discriminate || lia.
Defined.

Lemma Z_of_byte_range (b : byte) : (0 <= Z_of_byte b <= 255)%Z.
Proof. unfold Z_of_byte. pose proof (Byte.to_N_bounded b). lia. Qed.

Lemma int16_at_range (data : list byte) (k : nat) :
  (-32768 <= int16_at data k <= 32767)%Z.
Proof.
  unfold int16_at.
  assert (H : forall o : option byte, (0 <= from_option Z_of_byte 0%Z o <= 255)%Z).
  { intros [b|]; simpl; [apply Z_of_byte_range|lia]. }
  pose proof (H (data !! (2 * k)%nat)).
  pose proof (H (data !! (2 * k + 1)%nat)).
  destruct (Z.leb_spec 32768
              (from_option Z_of_byte 0%Z (data !! (2 * k)%nat)
               + 256 * from_option Z_of_byte 0%Z (data !! (2 * k + 1)%nat))); lia.
Qed.

Lemma normalized_range (z : Z) :
  (-32768 <= z <= 32767)%Z -> (-1 <= normalized z /\ normalized z < 1)%Q.
Proof.
  intros H. unfold normalized, Qdiv, Qmult, Qinv, inject_Z, Qle, Qlt. simpl. lia.
Qed.

(** The buffer of a one-channel call. *)
Lemma decodeAudioData_mono_buffer (ctx : AudioContext) (data : option (list byte))
  (sampleRate : Z) :
  (1 <= maxChannels ctx)%Z ->
  (minSampleRate ctx <= sampleRate <= maxSampleRate ctx)%Z ->
  (Z.of_nat (from_option length 0%nat data / 2)%nat < 4294967296)%Z ->
  exists buffer,
    Audio.decodeAudioData data ctx sampleRate 1 = Some buffer
    /\ numberOfChannels buffer = 1%nat
    /\ frames buffer = (1 `max` (from_option length 0%nat data / 2))%nat
    /\ forall c i v,
         get_sample buffer c i = Some v ->
         exists q, v = Num q /\ (-1 <= q /\ q < 1)%Q.
Proof.
  intros Hch Hrate Hwrap.
  destruct (Nat.lt_ge_cases (from_option length 0%nat data) 2) as [Hs|Hs].
  - eexists. split; [apply decodeAudioData_silent; lia|].
    assert (E : (from_option length 0%nat data / 2 = 0)%nat)
      by (apply Nat.div_small; exact Hs).
    rewrite E. unfold numberOfChannels, frames, get_sample. cbn [channelData].
    split; [reflexivity|]. split; [reflexivity|].
    intros [|c] [|i] v; cbn; intros [= <-].
    exists 0%Q. split; [reflexivity|]. split; [discriminate|reflexivity].
  - destruct data as [data|]; [|simpl in Hs; lia]. cbn [from_option] in *.
    assert (Hn : (1 <= length data / 2)%nat)
      by (apply Nat.div_le_lower_bound; lia).
    eexists. split.
    { apply decodeAudioData_closed; rewrite ?Z.div_1_r; lia. }
    rewrite Z.div_1_r, Nat2Z.id.
    unfold numberOfChannels, frames, get_sample. cbn [channelData].
    split; [reflexivity|]. split.
    + change (Pos.to_nat 1) with 1%nat. cbn [seq map lookup list_lookup from_option].
      rewrite length_map, length_seq. lia.
    + intros c i v. change (Pos.to_nat 1) with 1%nat. cbn [seq map].
      destruct c as [|c]; [|destruct c; discriminate].
      cbn [lookup list_lookup mbind option_bind].
      rewrite list_lookup_fmap.
      destruct (seq 0 (length data / 2) !! i) as [j|]; [|discriminate].
      cbn [fmap option_fmap option_map]. intros [= <-].
      eexists. split; [reflexivity|].
      apply normalized_range, int16_at_range.
Qed.

(** X10. With one channel, as the application calls it, on a context
    that supports one channel and the rate and for fewer than 2^32
    samples, [decodeAudioData] never throws: it returns one channel of
    [max 1 (floor (length / 2))] frames, and every sample of it is a
    finite number from -1 up to, but not including, 1. *)
Theorem decodeAudioData_mono (ctx : AudioContext) (data : option (list byte))
  (sampleRate : Z) :
  (1 <= maxChannels ctx)%Z ->
  (minSampleRate ctx <= sampleRate <= maxSampleRate ctx)%Z ->
  (Z.of_nat (from_option length 0%nat data / 2)%nat < 4294967296)%Z ->
  exists buffer,
    Audio.decodeAudioData data ctx sampleRate 1 = Some buffer
    /\ numberOfChannels buffer = 1%nat
    /\ frames buffer = (1 `max` (from_option length 0%nat data / 2))%nat
    /\ forall c i v,
         get_sample buffer c i = Some v ->
         exists q, v = Num q /\ (-1 <= q /\ q < 1)%Q.
Proof. exact (decodeAudioData_mono_buffer ctx data sampleRate). Qed.

Lemma decodeAudioData_mono_witness :
  exists buffer,
    Audio.decodeAudioData (Some [x00; x40; x00; xc0; x7f]) test_ctx 24000 1
    = Some buffer
    /\ numberOfChannels buffer = 1%nat
    /\ frames buffer = 2%nat.
Proof.
  destruct (decodeAudioData_mono test_ctx (Some [x00; x40; x00; xc0; x7f]) 24000)
    as (buffer & H & H1 & H2 & _); try (vm_compute; intuition discriminate).
  exists buffer. split; [exact H|]. split; [exact H1|exact H2].
Defined.

(** ** The transcoder *)

(** Rounding toward zero is the floor from zero up and the ceiling
    below. *)
Lemma truncate_floor_ceiling (q : Q) :
  truncate (Num q) = if Qle_bool 0 q then Qfloor q else Qceiling q.
Proof.
  unfold truncate, Qle_bool, Qceiling, Qfloor. destruct q as [a b].
  cbn [Qnum Qden Qopp]. change (Qnum 0) with 0%Z.
  destruct (Z.leb_spec (0 * Z.pos b) (a * 1)).
  - apply Z.quot_div_nonneg; lia.
  - replace a with (- - a)%Z at 1 by lia.
    rewrite Z.quot_opp_l by lia. rewrite Z.quot_div_nonneg by lia. reflexivity.
Qed.

Lemma truncate_monotone (x y : Q) :
  (x <= y)%Q -> (truncate (Num x) <= truncate (Num y))%Z.
Proof.
  intros H. rewrite !truncate_floor_ceiling.
  destruct (Qle_bool 0 x) eqn:Ex, (Qle_bool 0 y) eqn:Ey.
  - now apply Qfloor_resp_le.
  - apply Qle_bool_iff in Ex. exfalso.
    assert (Hy : (0 <= y)%Q) by (eapply Qle_trans; eassumption).
    apply Qle_bool_iff in Hy. congruence.
  - apply Qle_bool_iff in Ey.
    assert (Hx : (x <= 0)%Q).
    { destruct (Qlt_le_dec x 0) as [L|L]; [now apply Qlt_le_weak|].
      apply Qle_bool_iff in L. congruence. }
    apply Z.le_trans with 0%Z.
    + change 0%Z with (Qceiling 0). now apply Qceiling_resp_le.
    + change 0%Z with (Qfloor 0). now apply Qfloor_resp_le.
  - now apply Qceiling_resp_le.
Qed.

Lemma clamp_cases (x : Q) :
  ((1 <= x)%Q /\ clamp x = 1%Q)
  \/ ((-1 <= x)%Q /\ (x < 1)%Q /\ clamp x = x)
  \/ ((x < -1)%Q /\ clamp x = (-1)%Q).
Proof.
  unfold clamp.
  destruct (Qle_bool 1 x) eqn:E1.
  - left. apply Qle_bool_iff in E1. auto.
  - assert (H1 : (x < 1)%Q).
    { destruct (Qlt_le_dec x 1) as [L|L]; [assumption|].
      apply Qle_bool_iff in L. congruence. }
    destruct (Qle_bool (-1) x) eqn:E2.
    + right. left. apply Qle_bool_iff in E2. auto.
    + right. right. split; [|reflexivity].
      destruct (Qlt_le_dec x (-1)) as [L|L]; [assumption|].
      apply Qle_bool_iff in L. congruence.
Qed.

Lemma scale_cases (s : Q) :
  ((0 <= s)%Q /\ scale s = 32767%Q) \/ ((s < 0)%Q /\ scale s = 32768%Q).
Proof.
  unfold scale. destruct (Qle_bool 0 s) eqn:E.
  - left. apply Qle_bool_iff in E. auto.
  - right. split; [|reflexivity].
    destruct (Qlt_le_dec s 0) as [L|L]; [assumption|].
    apply Qle_bool_iff in L. congruence.
Qed.

(** The scaled value of a finite sample, before the store. *)
Lemma scaled_range (x : Q) :
  (-32768 <= clamp x * scale (clamp x) <= 32767)%Q.
Proof.
  destruct (clamp_cases x) as [[? E]|[(? & ? & E)|[? E]]];
    destruct (scale_cases (clamp x)) as [[? S]|[? S]];
    rewrite S; rewrite E in *; split; lra.
Qed.

(** The store into the [Int16Array] never wraps. *)
Lemma quantize_truncate (x : Q) :
  Audio.quantize (Num x) = truncate (Num (clamp x * scale (clamp x))).
Proof.
  rewrite quantize_clamped. unfold toInt16.
  destruct (scaled_range x) as [L U].
  apply truncate_monotone in L, U.
  change (truncate (Num (-32768))) with (-32768)%Z in L.
  change (truncate (Num 32767)) with 32767%Z in U.
  destruct (Z.leb_spec 32768 (truncate (Num (clamp x * scale (clamp x))) mod 65536));
    divmod_lia.
Qed.

(** X11. The quantizer of [fileToPcm16k] is monotone: a larger finite
    sample never gets a smaller 16-bit value. *)
Theorem quantize_monotone (x y : Q) :
  (x <= y)%Q -> (Audio.quantize (Num x) <= Audio.quantize (Num y))%Z.
Proof.
  intros H. rewrite !quantize_truncate. apply truncate_monotone.
  destruct (clamp_cases x) as [[? Ex]|[(? & ? & Ex)|[? Ex]]];
    destruct (clamp_cases y) as [[? Ey]|[(? & ? & Ey)|[? Ey]]];
    destruct (scale_cases (clamp x)) as [[? Sx]|[? Sx]];
    destruct (scale_cases (clamp y)) as [[? Sy]|[? Sy]];
    rewrite Sx, Sy; rewrite Ex, Ey in *; lra.
Qed.

Lemma quantize_monotone_witness :
  (Audio.quantize (Num (-1 # 2)) <= Audio.quantize (Num (1 # 3)))%Z.
Proof. apply (quantize_monotone (-1 # 2) (1 # 3)). vm_compute. discriminate. Defined.

(** X12. Read back the way [decodeAudioData] reads a sample (divided by
    32768), the 16-bit value of a finite sample is within 1/16384 of the
    clamped sample, and on the same side of it as zero. *)
Theorem quantize_error_bound (x : Q) :
  let s := clamp x in
  let r := normalized (Audio.quantize (Num x)) in
  (Qabs (r - s) < 1 # 16384)%Q
  /\ ((0 <= s)%Q -> (0 <= r <= s)%Q)
  /\ ((s < 0)%Q -> (s <= r <= 0)%Q).
Proof.
  intros s r. unfold r, normalized. rewrite quantize_truncate. fold s.
  rewrite truncate_floor_ceiling.
  assert (Hs : (-1 <= s <= 1)%Q).
  { unfold s. destruct (clamp_cases x) as [[? E]|[(? & ? & E)|[? E]]];
      rewrite E; split; lra. }
  set (t := (s * scale s)%Q).
  pose proof (Qfloor_le t) as F1. pose proof (Qlt_floor t) as F2.
  pose proof (Qle_ceiling t) as C1. pose proof (Qceiling_lt t) as C2.
  rewrite inject_Z_plus in F2. unfold Z.sub in C2. rewrite inject_Z_plus in C2.
  change (inject_Z 1) with 1%Q in *. change (inject_Z (- (1))) with (-1)%Q in *.
  assert (D : forall z : Z, (inject_Z z / inject_Z 32768 == inject_Z z * (1 # 32768))%Q).
  { intros z. unfold Qdiv. reflexivity. }
  destruct (scale_cases s) as [[Hpos S]|[Hneg S]]; unfold t in *; rewrite S in *.
  - assert (E : Qle_bool 0 (s * 32767) = true) by (apply Qle_bool_iff; lra).
    rewrite E.
    assert (Z0 : (0 <= inject_Z (Qfloor (s * 32767)))%Q).
    { change 0%Q with (inject_Z 0). rewrite <- Zle_Qle.
      change 0%Z with (Qfloor 0). apply Qfloor_resp_le. lra. }
    split; [|split].
    + apply Qabs_Qlt_condition. rewrite D. split; lra.
    + intros _. rewrite D. split; lra.
    + intros. lra.
  - assert (E : Qle_bool 0 (s * 32768) = false).
    { destruct (Qle_bool 0 (s * 32768)) eqn:E'; [|reflexivity].
      apply Qle_bool_iff in E'. lra. }
    rewrite E.
    assert (Z0 : (inject_Z (Qceiling (s * 32768)) <= 0)%Q).
    { change 0%Q with (inject_Z 0). rewrite <- Zle_Qle.
      change 0%Z with (Qceiling 0). apply Qceiling_resp_le. lra. }
    split; [|split].
    + apply Qabs_Qlt_condition. rewrite D. split; lra.
    + intros. lra.
    + intros _. rewrite D. split; lra.
Qed.







(** ** The streaming promise *)

Lemma part_chunks_nonempty (part : Part) :
  Forall (fun c => c <> []) (part_chunks part).
Proof.
  unfold part_chunks, truthy.
  destruct (inlineData part) as [[|x r]|]; repeat constructor. discriminate.
Qed.

Lemma received_chunks_nonempty (evs : list Event) :
  Forall (fun c => c <> []) (received_chunks evs).
Proof.
  unfold received_chunks. induction evs as [|ev evs IH]; [constructor|].
  cbn [flat_map]. apply Forall_app. split; [|exact IH].
  destruct ev as [|message| | |]; try constructor.
  cbn [event_chunks]. induction (parts message) as [|p ps IHp]; [constructor|].
  cbn [flat_map]. apply Forall_app. split; [apply part_chunks_nonempty|exact IHp].
Qed.

(** X15. In every state the callbacks can reach, [hasReceivedAudio] is
    true exactly when [accumulatedAudioChunks] is not empty, no stored
    chunk is the empty string, and later events only append to the
    chunks: none is dropped or reordered, whether the promise is settled
    or not. *)
Theorem generateSpeech_chunks_invariant (evs : list Event) :
  let st := fst (run evs) in
  (hasReceivedAudio st = true <-> accumulatedAudioChunks st <> [])
  /\ Forall (fun c => c <> []) (accumulatedAudioChunks st)
  /\ forall evs',
       accumulatedAudioChunks st
         `prefix_of` accumulatedAudioChunks (fst (run (evs ++ evs'))).
Proof.
  destruct (run_invariant evs) as (H1 & _ & H3 & _).
  cbv zeta in *. rewrite H1, H3. split; [apply nonempty_true|].
  split; [apply received_chunks_nonempty|].
  intros evs'. destruct (run_invariant (evs ++ evs')) as (H1' & _).
  cbv zeta in H1'. rewrite H1'. unfold received_chunks.
  rewrite flat_map_app. now eexists.
Qed.

Lemma settlements_stable (evs evs' : list Event) (a : Action) :
  settlements (snd (run evs)) = [a] ->
  settlements (snd (run (evs ++ evs'))) = [a].
Proof.
  intros H. pose proof (settlements_at_most_one (evs ++ evs')) as L.
  destruct (run_app_out evs evs') as [out E].
  rewrite E, settlements_app, H in *.
  destruct (settlements out); [reflexivity|simpl in L; lia].
Qed.

(** X16. An error event that reaches a pending promise rejects it with
    [API Error: ] followed by the message of the event, or by
    [Unknown connection error] when there is none, whatever audio has
    been received; no later event resolves the promise. *)
Theorem generateSpeech_error_rejects (evs evs' : list Event)
  (message : option jsstring) :
  isResolved (fst (run evs)) = false ->
  settlements (snd (run (evs ++ OnError message :: evs')))
  = [Reject (lit "API Error: "
             ++ (if truthy message then default [] message
                 else lit "Unknown connection error"))].
Proof.
  intros Hpending.
  change (OnError message :: evs') with ([OnError message] ++ evs').
  rewrite app_assoc. apply settlements_stable.
  destruct (run_invariant evs) as (_ & _ & _ & H4 & _). rewrite Hpending in H4.
  rewrite run_snoc. cbn [snd step]. rewrite settlements_app, H4.
  unfold onerror. rewrite Hpending. reflexivity.
Qed.

Lemma generateSpeech_error_rejects_witness :
  settlements
    (snd (run ([OnMessage (audio_message (lit "AAEC"))]
               ++ OnError None :: [OnMessage turn_complete; OnClose; Timeout])))
  = [Reject (lit "API Error: Unknown connection error")].
Proof.
  apply (generateSpeech_error_rejects [OnMessage (audio_message (lit "AAEC"))]
           [OnMessage turn_complete; OnClose; Timeout] None).
  reflexivity.
Defined.

Lemma step_resolves (st : State) (ev : Event) (value : jsstring) :
  In (Resolve value) (snd (step st ev)) -> exists chunks, value = combined chunks.
Proof.
  destruct ev as [|message|message| |]; cbn [step].
  - intros [].
  - unfold onmessage.
    destruct (turnComplete message); [|intros []].
    destruct (negb (isResolved _)); [|intros []].
    destruct (hasReceivedAudio _).
    + cbn [snd]. rewrite resolve_combined_spec.
      intros [[= <-]|[H|[]]]; [eauto|discriminate].
    + destruct (0 <? _)%nat; cbn [snd]; [|intros []].
      intros [H|[H|[]]]; discriminate.
  - unfold onerror. destruct (negb (isResolved st)); cbn [snd]; [|intros []].
    intros [H|[]]. discriminate.
  - unfold onclose. destruct (negb (isResolved st)); cbn [snd]; [|intros []].
    destruct (0 <? _)%nat.
    + rewrite resolve_combined_spec. intros [[= <-]|[]]. eauto.
    + intros [H|[]]. discriminate.
  - unfold ontimeout. destruct (negb (isResolved st)); [|intros []].
    destruct (0 <? _)%nat; cbn [snd].
    + rewrite resolve_combined_spec. intros [[= <-]|[H|[]]]; [eauto|discriminate].
    + intros [H|[H|[]]]; discriminate.
Qed.

Lemma run_resolves (evs : list Event) (value : jsstring) :
  In (Resolve value) (snd (run evs)) -> exists chunks, value = combined chunks.
Proof.
  induction evs as [|ev evs IH] using rev_ind; [intros []|].
  rewrite run_snoc. cbn [snd]. intros H. apply in_app_or in H as [H|H].
  - now apply IH.
  - now apply step_resolves in H.
Qed.

(** X17. Whatever [generateSpeech] resolves with, the application's
    processing of it does not throw on a context that supports one
    channel at 24000 Hz (for fewer than 2^32 samples): [decode] accepts
    the value, the WAV blob is the header followed by the decoded bytes,
    and the playback buffer has [max 1 (floor (length / 2))] frames. *)
Theorem process_output_of_resolved (evs : list Event) (value : jsstring)
  (ctx : AudioContext) :
  In (Resolve value) (snd (run evs)) ->
  (1 <= maxChannels ctx)%Z ->
  (minSampleRate ctx <= 24000 <= maxSampleRate ctx)%Z ->
  (forall pcm, Audio.decode value = Some pcm ->
               (Z.of_nat (length pcm / 2)%nat < 4294967296)%Z) ->
  exists pcm blob buffer,
    Audio.decode value = Some pcm
    /\ App.process_output value ctx = Some (blob, buffer)
    /\ Audio.blobBytes blob = wav_header (Z.of_nat (length pcm)) 24000 ++ pcm
    /\ numberOfChannels buffer = 1%nat
    /\ frames buffer = (1 `max` (length pcm / 2))%nat.
Proof.
  intros Hin Hch Hrate Hwrap.
  destruct (run_resolves evs value Hin) as [chunks ->].
  pose proof (decode_combined chunks) as D.
  set (pcm := concat (map chunk_bytes chunks)) in *.
  destruct (decodeAudioData_mono_buffer ctx (Some pcm) 24000 Hch Hrate
              (Hwrap pcm D)) as (buffer & B & B1 & B2 & _).
  exists pcm. eexists. exists buffer. split; [exact D|].
  unfold App.process_output. rewrite D. cbn [mbind option_bind].
  rewrite pcmToWav_spec. cbn [mbind option_bind]. rewrite B.
  cbn [mbind option_bind].
  split; [reflexivity|]. split; [reflexivity|]. split; [exact B1|exact B2].
Qed.

Lemma process_output_of_resolved_witness :
  exists pcm blob buffer,
    Audio.decode (lit "AAECAwQ=") = Some pcm
    /\ App.process_output (lit "AAECAwQ=") test_ctx = Some (blob, buffer)
    /\ Audio.blobBytes blob = wav_header (Z.of_nat (length pcm)) 24000 ++ pcm
    /\ numberOfChannels buffer = 1%nat
    /\ frames buffer = (1 `max` (length pcm / 2))%nat.
Proof.
  apply (process_output_of_resolved
           [OnMessage (audio_message (lit "AAEC"));
            OnMessage (audio_message (lit "AwQ=")); OnClose]).
  - vm_compute. auto.
  - vm_compute. discriminate.
  - vm_compute. intuition discriminate.
  - intros pcm H. vm_compute in H. injection H as <-. vm_compute. reflexivity.
Defined.

Lemma step_close_requests (st : State) (ev : Event) :
  (length (close_requests (snd (step st ev)))
   <= length (settlements (snd (step st ev))))%nat.
Proof.
  destruct ev as [|message|message| |]; cbn [step]; try (simpl; lia).
  - unfold onmessage.
    destruct (turnComplete message); [|simpl; lia].
    destruct (negb (isResolved _)); [|simpl; lia].
    destruct (hasReceivedAudio _);
      [cbn [snd]; rewrite resolve_combined_spec; simpl; lia|].
    destruct (0 <? _)%nat; simpl; lia.
  - unfold onerror. destruct (negb (isResolved st)); simpl; lia.
  - unfold onclose. destruct (negb (isResolved st)); [|simpl; lia].
    destruct (0 <? _)%nat; cbn [snd];
      [rewrite resolve_combined_spec|]; simpl; lia.
  - unfold ontimeout. destruct (negb (isResolved st)); [|simpl; lia].
    destruct (0 <? _)%nat; cbn [snd];
      [rewrite resolve_combined_spec|]; simpl; lia.
Qed.

(** X18. Whatever the sequence of events, the callbacks ask at most once
    for the session to be closed, and only together with the call that
    settles the promise. *)
Theorem generateSpeech_closes_once (evs : list Event) :
  (length (close_requests (snd (run evs)))
   <= length (settlements (snd (run evs))) <= 1)%nat.
Proof.
  split; [|apply settlements_at_most_one].
  induction evs as [|ev evs IH] using rev_ind; [simpl; lia|].
  rewrite run_snoc. cbn [snd].
  unfold close_requests in *.
  rewrite settlements_app, List.filter_app, !length_app.
  pose proof (step_close_requests (fst (run evs)) ev) as S.
  unfold close_requests in S. lia.
Qed.
